(** * Stock update service: a shallow embedding of app/services/stockUpdate.js

    The service refreshes per-company stock records: it queries a discovery
    service for articles, filters the ones already stored, fetches prices,
    aligns them to the article dates, scrapes an image per new article and
    writes the merged record to the document store.

    Promises are modelled by their settlement ([Resolved] or [Rejected]);
    the external collaborators (page fetcher, HTML parser, market-data
    client, discovery client, document store, the helpers of util/utils.js
    and the values of config.js) are the fields of the class [Env]. *)

From Stdlib Require Import ZArith Ascii String List Bool Permutation Sorted.
From stdpp Require Import gmap strings list fin_maps sorting.
Import ListNotations.
Local Open Scope string_scope.
Local Open Scope list_scope.

(** ** JavaScript values the service relies on *)

(** The settlement of a promise. The service never inspects a rejection
    reason except in the discovery fan-out, which keeps its own list. *)
Inductive settled (A : Type) : Type :=
  | Resolved (value : A)
  | Rejected.
Arguments Resolved {A} value.
Arguments Rejected {A}.

(** Truthiness of a string-or-undefined value: [undefined] and the empty
    string are falsy. *)
Definition truthy (v : option string) : bool :=
  match v with
  | Some s => negb (String.eqb s "")
  | None => false
  end.

(** [a > b] on the time values of two [Date] objects; an invalid date has
    the time value NaN ([None]) and every comparison with it is false. *)
Definition dateGt (a b : option Z) : bool :=
  match a, b with
  | Some x, Some y => (y <? x)%Z
  | _, _ => false
  end.

(** ** Data model *)

Record Article := mkArticle {
  url : string;
  sentiment : string;
  date : option string;
  title : string;
  source : string;
  imageURL : option string
}.

(** What [getImageForArticle] resolves with when it finds an image. *)
Record ImageResult := mkImageResult {
  img_url : string;
  img_imageURL : string
}.

(** Prices are only stored and copied, never computed with, so the records
    are generic in their type. *)
Record PricePair (P : Type) := mkPair {
  pair_date : string;
  pair_price : P
}.
Arguments mkPair {P} _ _.
Arguments pair_date {P} _.
Arguments pair_price {P} _.

Record Stock (P : Type) := mkStock {
  company : string;
  ticker : option string;
  history : option (list Article);
  price_history : option (gmap string P)
}.
Arguments mkStock {P} _ _ _ _.
Arguments company {P} _.
Arguments ticker {P} _.
Arguments history {P} _.
Arguments price_history {P} _.

(** A raw discovery result, with the fields [parseArticle] reads. *)
Record DiscoveryResult := mkDiscoveryResult {
  res_url : string;
  res_label : string;
  res_crawl_date : option string;
  res_title : string;
  res_forum_title : string
}.

(** What [getArticleDataForCompany] hands to its callback on success. *)
Record ArticleDatum := mkArticleDatum {
  ad_company : string;
  ad_articles : list Article
}.

(** The reason a discovery query rejects with. *)
Inductive Reason :=
  | ReasonUndefined
  | ReasonText (text : string)
  | ReasonError (message : string).

Inductive QueryOutcome :=
  | QueryOk (results : list DiscoveryResult)
  | QueryFailed (reason : Reason).

(** ** The environment of a run *)

Class Env := {
  Price : Type;
  (** util/utils.js, which is not among the sources at hand *)
  avDateStringToDate : string -> option Z;
  convertArticleDateToAVDate : string -> string;
  convertPriceMapToList : option (gmap string Price) -> list (PricePair Price);
  extractHTTPURL : string -> option string;
  extractDomain : string -> string;
  (** built-ins and third-party modules: the time value of [new Date(s)],
      [request(url, cb)] ([None] on a transport error) and the [src] cheerio
      finds under the root and under [body] *)
  jsDate : string -> option Z;
  request : string -> option string;
  rootImgSrc : string -> option string;
  bodyImgSrc : string -> option string;
  (** services: [None] when the promise rejects; [settleOrder cs] lists the
      companies [cs] in the order in which their discovery queries settle,
      and [tickSizes cs] says how many of them, in turn, settle together
      within one tick of the event loop (queries beyond the listed sizes
      settle one per tick, as network answers do) *)
  getPriceHistoryForTicker : string -> option (gmap string Price);
  discoveryQuery : string -> QueryOutcome;
  settleOrder : list string -> list string;
  tickSizes : list string -> list nat;
  dbSearch : option (list (Stock Price));
  (** config.js: [configCompanies] pairs a company name with its ticker *)
  MAX_ARTICLES_PER_COMPANY : nat;
  configured : bool;
  configCompanies : list (string * string)
}.

(** ** The service *)

Section Model.
Context `{E : Env}.

(** *** Sorting *)

(** The time value of [new Date(article.date)]; a missing date gives an
    invalid date. *)
Definition articleTime (a : Article) : option Z :=
  match date a with
  | Some s => jsDate s
  | None => None
  end.

(** The comparator of [sortArticles]:
    [new Date(b.date) - new Date(a.date)], NaN ([None]) when either date is
    invalid. *)
Definition compareArticles (a b : Article) : option Z :=
  match articleTime b, articleTime a with
  | Some tb, Some ta => Some (tb - ta)%Z
  | _, _ => None
  end.

(** [Array.prototype.sort] as a stable insertion sort: an element moves
    behind another only when the comparator is positive, and NaN counts
    as zero. Under a comparator that is a consistent order this is what the
    language asks of the built-in; under one that is not (NaN from an
    invalid date) every engine has an order of its own, so what is stated
    about the order of dated articles assumes valid dates unless it is
    about one given input. *)
Definition comesAfter {A} (cmp : A -> A -> option Z) (x y : A) : bool :=
  match cmp x y with
  | Some v => (0 <? v)%Z
  | None => false
  end.

Fixpoint sortInsert {A} (cmp : A -> A -> option Z) (x : A) (l : list A)
    : list A :=
  match l with
  | [] => [x]
  | y :: l' => if comesAfter cmp x y then y :: sortInsert cmp x l' else x :: l
  end.

Fixpoint arraySort {A} (cmp : A -> A -> option Z) (l : list A) : list A :=
  match l with
  | [] => []
  | x :: l' => sortInsert cmp x (arraySort cmp l')
  end.

Definition sortArticles (articles : list Article) : list Article :=
  arraySort compareArticles articles.

(** *** Duplicates *)

Fixpoint articleContains (article : Article) (articles : list Article)
    : bool :=
  match articles with
  | [] => false
  | x :: rest =>
      if String.eqb (url article) (url x) then true
      else articleContains article rest
  end.

(** *** Images *)

(** [imgSrc.startsWith('/') ? imgSrc.slice(1) : imgSrc] *)
Definition sliceLeadingSlash (imgSrc : string) : string :=
  match imgSrc with
  | String "/"%char rest => rest
  | _ => imgSrc
  end.

(** The [src] of the first image under the root or, failing that, under
    [body]. *)
Definition findImgSrc (html : string) : option string :=
  let imgSrc := rootImgSrc html in
  if negb (truthy imgSrc) then bodyImgSrc html else imgSrc.

Definition getImageForArticle (article : Article)
    : settled (option ImageResult) :=
  let url := url article in
  match request url with
  | Some html =>
      match findImgSrc html with
      | Some src =>
          if truthy (Some src) then
            let httpURL := extractHTTPURL src in
            let imageURL :=
              match httpURL with
              | Some h =>
                  if truthy (Some h) then h
                  else extractDomain url +:+ "/" +:+ sliceLeadingSlash src
              | None => extractDomain url +:+ "/" +:+ sliceLeadingSlash src
              end in
            Resolved (Some (mkImageResult url imageURL))
          else Resolved None
      | None => Resolved None
      end
  | None => Rejected
  end.

(** [promise.catch(e => e)]: a rejection of [getImageForArticle] carries no
    reason, so the caught promise resolves with [undefined]. *)
Definition caught (p : settled (option ImageResult)) : option ImageResult :=
  match p with
  | Resolved v => v
  | Rejected => None
  end.

(** [tempRes && tempRes.url] *)
Definition keepImageResult (tempRes : option ImageResult) : bool :=
  match tempRes with
  | Some r => truthy (Some (img_url r))
  | None => false
  end.

Definition getImages (articles : list Article) : settled (list ImageResult) :=
  let tempResults := List.map (fun a => caught (getImageForArticle a)) articles in
  Resolved (omap (fun t => if keepImageResult t then t else None) tempResults).

(** The inner loop of [insertNewArticles]: the first new article with the
    URL of [imgResult] gets its image; the loop then breaks. The assignment
    is in place, on objects [parseArticle] created for this batch: no stored
    history holds them before the merge, so the update of the list is all
    there is to it. *)
Fixpoint attachImage (imgResult : ImageResult) (newArticles : list Article)
    : list Article :=
  match newArticles with
  | [] => []
  | newArtic :: rest =>
      if String.eqb (url newArtic) (img_url imgResult) then
        mkArticle (url newArtic) (sentiment newArtic) (date newArtic)
                  (title newArtic) (source newArtic)
                  (Some (img_imageURL imgResult)) :: rest
      else newArtic :: attachImage imgResult rest
  end.

Definition attachImages (imgResults : list ImageResult)
    (newArticles : list Article) : list Article :=
  fold_left (fun arts r => attachImage r arts) imgResults newArticles.

(** *** Merging *)

(** The length cap of [insertNewArticles]. *)
Definition capArticles (updatedArticles : list Article) : list Article :=
  if (MAX_ARTICLES_PER_COMPANY <? length updatedArticles)%nat
  then firstn MAX_ARTICLES_PER_COMPANY updatedArticles
  else updatedArticles.

(** [insertNewArticles]: the record after the merge and the records handed
    to [stock_db.insertOrUpdate]. The write may fail; the failure is only
    logged. *)
Definition insertNewArticles (stockDatum : Stock Price)
    (newArticles : list Article) : Stock Price * list (Stock Price) :=
  match getImages newArticles with
  | Resolved imgResults =>
      let newArticles := attachImages imgResults newArticles in
      let existingArticles := default [] (history stockDatum) in
      let updatedArticles := sortArticles (existingArticles ++ newArticles) in
      let updatedArticles := capArticles updatedArticles in
      let stockDatum :=
        mkStock (company stockDatum) (ticker stockDatum)
                (Some updatedArticles) (price_history stockDatum) in
      (stockDatum, [stockDatum])
  | Rejected => (stockDatum, [])
  end.

(** *** Prices *)

(** [getLatestStockPrices]: the record with the fetched prices written over
    the stored ones, or a rejection when there is no ticker or the fetch
    fails. *)
Definition getLatestStockPrices (stockDatum : Stock Price)
    : settled (Stock Price) :=
  match ticker stockDatum with
  | Some t =>
      if truthy (Some t) then
        match getPriceHistoryForTicker t with
        | Some updatedHistory =>
            let newHistory :=
              updatedHistory ∪ default ∅ (price_history stockDatum) in
            Resolved (mkStock (company stockDatum) (ticker stockDatum)
                        (history stockDatum) (Some newHistory))
        | None => Rejected
        end
      else Rejected
  | None => Rejected
  end.

(** The [for] loop of [getPairForDate]. [thisPair] is the value the
    function-scoped variable of that name holds on entry ([None] before the
    first iteration), which is also [priceList[i - 1]]. The loop either
    returns ([inl]) or runs out and leaves [thisPair] behind ([inr]). *)
Fixpoint getPairForDate_loop (date : string) (realDate : option Z)
    (thisPair : option (PricePair Price)) (rest : list (PricePair Price))
    : option (PricePair Price) + option (PricePair Price) :=
  match rest with
  | [] => inr thisPair
  | p :: rest' =>
      if String.eqb (pair_date p) date then inl (Some p)
      else if dateGt (avDateStringToDate (pair_date p)) realDate then
        inl (Some (mkPair date
                     (match thisPair with
                      | Some previous => pair_price previous
                      | None => pair_price p
                      end)))
      else getPairForDate_loop date realDate (Some p) rest'
  end.

(** [getPairForDate]. The price list is always an array here, so only the
    date is tested by the guard. *)
Definition getPairForDate (date : string) (priceList : list (PricePair Price))
    : option (PricePair Price) :=
  if negb (truthy (Some date)) then None
  else
    let realDate := avDateStringToDate date in
    let numPairs := length priceList in
    match getPairForDate_loop date realDate None priceList with
    | inl r => r
    | inr thisPair =>
        if (0 <? numPairs)%nat &&
           match priceList !! (numPairs - 1)%nat with
           | Some lastPair =>
               dateGt realDate (avDateStringToDate (pair_date lastPair))
           | None => false
           end
        then thisPair else None
    end.

(** [Array.from(new Set(dates))]: the first occurrence of each date, in
    order. *)
Fixpoint distinctDates (seen : gset string) (dates : list string)
    : list string :=
  match dates with
  | [] => []
  | d :: rest =>
      if decide (d ∈ seen) then distinctDates seen rest
      else d :: distinctDates ({[d]} ∪ seen) rest
  end.

(** The dates of the articles that have one, in the market-data format. *)
Definition neededDates (articles : list Article) : list string :=
  distinctDates ∅
    (omap (fun art => convertArticleDateToAVDate <$> date art) articles).

(** The price map kept for a record: one entry per needed date that
    [getPairForDate] can serve. *)
Definition filterPriceHistory (needed : list string)
    (sortedPrices : list (PricePair Price)) : gmap string Price :=
  fold_left
    (fun filteredPriceHistory date =>
       match getPairForDate date sortedPrices with
       | Some pricePair =>
           <[pair_date pricePair := pair_price pricePair]> filteredPriceHistory
       | None => filteredPriceHistory
       end)
    needed ∅.

(** *** One company *)

(** The new articles of a batch: those [articleContains] does not find
    among the existing ones. *)
Definition filterNewArticles (existingArticles articles : list Article)
    : list Article :=
  List.filter (fun article => negb (articleContains article existingArticles))
    articles.

(** What the executor of [updateStocksData] does for one company once its
    record and its new articles are known: the record afterwards and the
    writes handed to the store. [existingArticles] is the history the
    executor captured when it started. *)
Definition updateStockDatum (stockDatum : Stock Price)
    (existingArticles newArticles : list Article)
    : Stock Price * list (Stock Price) :=
  if (0 <? length newArticles)%nat then
    match getLatestStockPrices stockDatum with
    | Resolved updatedStock =>
        let needed := neededDates (existingArticles ++ newArticles) in
        let priceMap := price_history updatedStock in
        let sortedPrices := convertPriceMapToList priceMap in
        let filteredPriceHistory := filterPriceHistory needed sortedPrices in
        insertNewArticles
          (mkStock (company updatedStock) (ticker updatedStock)
                   (history updatedStock) (Some filteredPriceHistory))
          newArticles
    | Rejected => insertNewArticles stockDatum newArticles
    end
  else (stockDatum, []).

(** *** The batch *)

(** Modelled from the spec: [utils.findStockDatum] is not among the sources
    at hand; the spec has the orchestrator "locate or create the StockRecord
    for the company". The result is the first record of that company with
    its position, which stands for the reference the helper returns. *)
Fixpoint findStockDatum (stockData : list (Stock Price)) (name : string)
    : option (nat * Stock Price) :=
  match stockData with
  | [] => None
  | s :: rest =>
      if String.eqb (company s) name then Some (0%nat, s)
      else prod_map S id <$> findStockDatum rest name
  end.

Fixpoint findTickerForCompany (companies : list (string * string))
    (name : string) : option string :=
  match companies with
  | [] => None
  | (n, t) :: rest =>
      if String.eqb name n then Some t else findTickerForCompany rest name
  end.

Definition findTickerForCompanyWithName (name : string) : option string :=
  findTickerForCompany configCompanies name.

(** The work an executor leaves for later: the position of its record, the
    history it captured and the new articles. *)
Record Task := mkTask {
  task_index : nat;
  task_existing : list Article;
  task_new : list Article
}.

(** The record an executor creates for a company it does not find. *)
Definition newStockDatum (company : string) : Stock Price :=
  mkStock company
          (Some match findTickerForCompanyWithName company with
                | Some t => if truthy (Some t) then t else "No Ticker Found"
                | None => "No Ticker Found"
                end)
          (Some []) None.

(** The synchronous part of one executor: find or create the record and
    filter the articles against its history. [results] and [stockData] are
    one array in the source, so a record created here is found by the
    executors that follow. *)
Definition startUpdate (results : list (Stock Price)) (articleDatum : ArticleDatum)
    : list (Stock Price) * Task :=
  let company := ad_company articleDatum in
  let '(results, index, stockDatum) :=
    match findStockDatum results company with
    | Some (i, stockDatum) => (results, i, stockDatum)
    | None =>
        let stockDatum := newStockDatum company in
        (results ++ [stockDatum], length results, stockDatum)
    end in
  let existingArticles := default [] (history stockDatum) in
  let newArticles := filterNewArticles existingArticles (ad_articles articleDatum) in
  (results, mkTask index existingArticles newArticles).

(** The asynchronous part of one executor, on the record as it is when the
    executor resumes, run to its end. Executors of different records do not
    meet; the source leaves open how two executors of one company would
    interleave. *)
Definition finishUpdate (state : list (Stock Price) * list (Stock Price))
    (task : Task) : list (Stock Price) * list (Stock Price) :=
  let '(results, writes) := state in
  match results !! task_index task with
  | Some stockDatum =>
      let '(stockDatum, written) :=
        updateStockDatum stockDatum (task_existing task) (task_new task) in
      (<[task_index task := stockDatum]> results, writes ++ written)
  | None => (results, writes)
  end.

(** The loop of [updateStocksData]: every executor runs its synchronous part
    as soon as it is created. *)
Definition startUpdates (articleData : list ArticleDatum)
    (stockData : list (Stock Price)) : list (Stock Price) * list Task :=
  fold_left
    (fun '(results, tasks) articleDatum =>
       let '(results, task) := startUpdate results articleDatum in
       (results, tasks ++ [task]))
    articleData (stockData, []).

(** [updateStocksData]: the asynchronous parts run once the loop is over.
    The promise never rejects; the result is the records and the writes
    handed to the store. *)
Definition updateStocksData (articleData : list ArticleDatum)
    (stockData : list (Stock Price)) : list (Stock Price) * list (Stock Price) :=
  let '(results, tasks) := startUpdates articleData stockData in
  fold_left finishUpdate tasks (results, []).

(** *** Discovery *)

Definition parseArticle (result : DiscoveryResult) : Article :=
  mkArticle (res_url result) (res_label result) (res_crawl_date result)
            (res_title result) (res_forum_title result) None.

Definition parseResults (results : list DiscoveryResult) : list Article :=
  List.map parseArticle results.

(** [filterDuplicates] of [getArticleDataForCompany]: [seen] holds the URLs
    met so far. The source keeps them as keys of a plain object, which
    behaves as a set for every URL but the two names it treats specially
    ([__proto__] and [hasOwnProperty]). *)
Fixpoint filterDuplicates (seen : gset string) (articles : list Article)
    : list Article :=
  match articles with
  | [] => []
  | article :: rest =>
      if decide (url article ∈ seen) then filterDuplicates seen rest
      else article :: filterDuplicates ({[url article]} ∪ seen) rest
  end.

(** [if (error)] on a rejection reason. *)
Definition reasonTruthy (r : Reason) : bool :=
  match r with
  | ReasonUndefined => false
  | ReasonText text => truthy (Some text)
  | ReasonError _ => true
  end.

(** The text [Array.prototype.join] gives an element of the error list. *)
Definition reasonToString (r : Reason) : string :=
  match r with
  | ReasonUndefined => ""
  | ReasonText text => text
  | ReasonError message =>
      if String.eqb message "" then "Error" else "Error: " +:+ message
  end.

(** [errors.join()] *)
Fixpoint joinErrors (errors : list Reason) : string :=
  match errors with
  | [] => ""
  | [e] => reasonToString e
  | e :: rest => reasonToString e +:+ "," +:+ joinErrors rest
  end.

(** The settling order cut into ticks: [sizes] gives the number of queries
    of each tick in turn; what is left when the sizes run out settles one
    query per tick. *)
Fixpoint ticksOf (sizes : list nat) (order : list string) : list (list string) :=
  match sizes with
  | [] => List.map (fun company => [company]) order
  | n :: rest => firstn n order :: ticksOf rest (skipn n order)
  end.

(** The queries that settle within one tick. Each runs the callback of
    [getArticleDataForCompany]: a fulfilled one appends its data, a rejected
    one appends its reason to the errors when the reason is truthy. All
    these callbacks run before the handlers of [Promise.all] do;
    [rejected] tells whether a query has rejected. *)
Fixpoint settleTick (tick : list string) (articleData : list ArticleDatum)
    (errors : list Reason) (rejected : bool)
    : list ArticleDatum * list Reason * bool :=
  match tick with
  | [] => (articleData, errors, rejected)
  | company :: rest =>
      match discoveryQuery company with
      | QueryOk results =>
          let articles := filterDuplicates ∅ (parseResults results) in
          settleTick rest (articleData ++ [mkArticleDatum company articles])
            errors rejected
      | QueryFailed error =>
          settleTick rest articleData
            (if reasonTruthy error then errors ++ [error] else errors) true
      end
  end.

(** [getArticleDataForCompanies], tick by tick. When every query is
    fulfilled [Promise.all] calls back with the data and no error. After the
    first tick in which a query rejects, the catch handler of [Promise.all]
    calls back with the data gathered so far and the joined errors; what
    settles later is no longer seen. *)
Fixpoint settleQueries (ticks : list (list string))
    (articleData : list ArticleDatum) (errors : list Reason)
    : list ArticleDatum * option string :=
  match ticks with
  | [] => (articleData, None)
  | tick :: rest =>
      let '(articleData, errors, rejected) :=
        settleTick tick articleData errors false in
      if rejected then (articleData, Some (joinErrors errors))
      else settleQueries rest articleData errors
  end.

Definition getArticleDataForCompanies (companies : list string)
    : list ArticleDatum * option string :=
  settleQueries (ticksOf (tickSizes companies) (settleOrder companies)) [] [].

(** *** The run *)

(** [StockUpdate.run]: how the promise settles, and the records handed to
    the store on the way. *)
Definition run (companies : option (list string))
    : settled (list (Stock Price)) * list (Stock Price) :=
  if negb configured then (Rejected, [])
  else
    match dbSearch with
    | Some docs =>
        let companies :=
          match companies with
          | Some cs => cs
          | None => List.map company docs
          end in
        if (0 <? length companies)%nat then
          let '(articleData, articlesErr) :=
            getArticleDataForCompanies companies in
          if negb (truthy articlesErr) then
            let '(results, writes) := updateStocksData articleData docs in
            (Resolved results, writes)
          else (Rejected, [])
        else (Rejected, [])
    | None => (Rejected, [])
    end.

(** ** Vocabulary of the properties *)

(** The time value of the date of a price pair. *)
Definition pairTime (p : PricePair Price) : option Z :=
  avDateStringToDate (pair_date p).

(** A price list is ascending by date when no pair is dated strictly after
    a pair further down the list. *)
Definition ascendingByDate (priceList : list (PricePair Price)) : Prop :=
  StronglySorted (fun p q => dateGt (pairTime p) (pairTime q) = false)
    priceList.

(** [a] is at least as recent as [b]: both dates are valid and the one of
    [b] is not later. *)
Definition atLeastAsRecent (a b : Article) : Prop :=
  match articleTime a, articleTime b with
  | Some ta, Some tb => (tb <= ta)%Z
  | _, _ => False
  end.

Definition validDate (a : Article) : Prop := is_Some (articleTime a).

Definition urls (articles : list Article) : list string :=
  List.map url articles.

(** An article with its image field blanked: what is left are the fields
    the image step must not touch. *)
Definition withoutImage (a : Article) : Article :=
  mkArticle (url a) (sentiment a) (date a) (title a) (source a) None.

(** The record a batch works on for a company: the stored one, or the one
    created for it. *)
Definition recordFor (stockData : list (Stock Price)) (company : string)
    : Stock Price :=
  match findStockDatum stockData company with
  | Some (_, stockDatum) => stockDatum
  | None => newStockDatum company
  end.

(** The new articles of a company in a batch and what its executor makes of
    its record. *)
Definition newArticlesFor (stockData : list (Stock Price))
    (articleDatum : ArticleDatum) : list Article :=
  filterNewArticles
    (default [] (history (recordFor stockData (ad_company articleDatum))))
    (ad_articles articleDatum).

Definition updateFor (stockData : list (Stock Price))
    (articleDatum : ArticleDatum) : Stock Price * list (Stock Price) :=
  let stockDatum := recordFor stockData (ad_company articleDatum) in
  updateStockDatum stockDatum (default [] (history stockDatum))
    (newArticlesFor stockData articleDatum).

(** What links an article datum to the task its executor leaves. *)
Definition taskOf (stockData results : list (Stock Price))
    (d : ArticleDatum) (t : Task) : Prop :=
  findStockDatum results (ad_company d)
  = Some (task_index t, recordFor stockData (ad_company d)) /\
  task_existing t = default [] (history (recordFor stockData (ad_company d))) /\
  task_new t = newArticlesFor stockData d.

(** The image results [insertNewArticles] receives from [getImages], and
    the new articles once the images are attached. *)
Definition resolvedImages (newArticles : list Article) : list ImageResult :=
  match getImages newArticles with
  | Resolved imgResults => imgResults
  | Rejected => []
  end.

Definition withImages (newArticles : list Article) : list Article :=
  attachImages (resolvedImages newArticles) newArticles.

(** What the image step may do to one new article: nothing, or set its
    image to the one of a result that carries its URL. *)
Definition imageStep (imgResults : list ImageResult) (before after : Article)
    : Prop :=
  withoutImage after = withoutImage before /\
  (imageURL after = imageURL before \/
   exists r, r ∈ imgResults /\ img_url r = url before /\
             imageURL after = Some (img_imageURL r)).

End Model.

(** ** A concrete environment

    Stand-ins for the collaborators, used to run the service on concrete
    inputs. *)

Module Sample.

Definition digitValue (c : ascii) : option Z :=
  let n := nat_of_ascii c in
  if ((48 <=? n) && (n <=? 57))%nat then Some (Z.of_nat (n - 48)) else None.

Fixpoint numberOf (acc : Z) (s : string) : option Z :=
  match s with
  | EmptyString => Some acc
  | String c rest =>
      match digitValue c with
      | Some d => numberOf (10 * acc + d)%Z rest
      | None => None
      end
  end.

(** Modelled from the spec: [utils.avDateStringToDate] is not among the
    sources at hand; the spec has it "parse ... date strings in the
    market-data API's format". A [YYYY-MM-DD] string gives a key that grows
    with the date (not the milliseconds of a JavaScript date), anything else
    an invalid date. *)
Definition dateKey (s : string) : option Z :=
  if (String.length s =? 10)%nat
     && String.eqb (substring 4 1 s) "-" && String.eqb (substring 7 1 s) "-"
  then
    match numberOf 0 (substring 0 4 s), numberOf 0 (substring 5 2 s),
          numberOf 0 (substring 8 2 s) with
    | Some y, Some m, Some d => Some (y * 10000 + m * 100 + d)%Z
    | _, _, _ => None
    end
  else None.

Fixpoint upTo (stop : ascii) (s : string) : string :=
  match s with
  | EmptyString => EmptyString
  | String c rest => if Ascii.eqb c stop then EmptyString else String c (upTo stop rest)
  end.

Definition dropFirst (n : nat) (s : string) : string :=
  substring n (String.length s - n) s.

(** Modelled from the spec: [utils.extractDomain] is not among the sources
    at hand; the spec resolves a relative path "against the scheme+host of
    articleUrl". *)
Definition schemeAndHost (u : string) : string :=
  match index 0 "://" u with
  | Some i => substring 0 (i + 3) u +:+ upTo "/" (dropFirst (i + 3) u)
  | None => upTo "/" u
  end.

(** Modelled from the spec: [utils.extractHTTPURL] is not among the sources
    at hand; the spec uses the found [src] verbatim when it "is already an
    absolute URL". *)
Definition absoluteURL (src : string) : option string :=
  if String.prefix "http://" src || String.prefix "https://" src then Some src else None.

(** The [src] of the first [img] tag of a page written with single quotes. *)
Definition firstImgSrc (html : string) : option string :=
  match index 0 "<img src='" html with
  | Some i => Some (upTo "'" (dropFirst (i + 10) html))
  | None => None
  end.

(** Modelled from the spec: [utils.convertPriceMapToList] is not among the
    sources at hand; the spec has it "convert a price-history mapping into a
    sorted list". The pairs of the map, ascending by date key. *)
Definition priceList (m : option (gmap string Z)) : list (PricePair Z) :=
  arraySort
    (fun p q =>
       match dateKey (pair_date p), dateKey (pair_date q) with
       | Some a, Some b => Some (a - b)%Z
       | _, _ => None
       end)
    (List.map (fun '(d, p) => mkPair d p) (map_to_list (default ∅ m))).

(** The pages of the sample web. *)
Definition pages (u : string) : option string :=
  if String.eqb u "http://example.com/news/1" then
    Some "<html><body><p>IBM</p><img src='/img/a.png'></body></html>"
  else if String.eqb u "http://example.com/news/2" then
    Some "<html><body><p>no picture</p></body></html>"
  else if String.eqb u "http://example.com/news/3" then
    Some "<html><body><img src='http://cdn.example.com/b.png'></body></html>"
  else None.

Definition prices (t : string) : option (gmap string Z) :=
  if String.eqb t "IBM" then
    Some (<["2018-01-20" := 10%Z]> (<["2018-01-25" := 12%Z]>
            (<["2018-01-30" := 15%Z]> ∅)))
  else None.

Definition result (u d t : string) : DiscoveryResult :=
  mkDiscoveryResult u "positive" (Some d) t "Example News".

Definition queries (c : string) : QueryOutcome :=
  if String.eqb c "IBM" then
    QueryOk [result "http://example.com/news/1" "2018-01-26" "one";
             result "http://example.com/news/2" "2018-01-25" "two"]
  else if String.eqb c "Apple" then
    QueryOk [result "http://example.com/news/3" "2018-01-27" "three"]
  else QueryFailed (ReasonError "timeout").

Definition ibm : Stock Z :=
  mkStock "IBM" (Some "IBM") (Some []) None.

(** The environment, for a given history cap. *)
Definition env (max : nat) : Env := {|
  Price := Z;
  avDateStringToDate := dateKey;
  convertArticleDateToAVDate := fun d => d;
  convertPriceMapToList := priceList;
  extractHTTPURL := absoluteURL;
  extractDomain := schemeAndHost;
  jsDate := dateKey;
  request := pages;
  rootImgSrc := firstImgSrc;
  bodyImgSrc := firstImgSrc;
  getPriceHistoryForTicker := prices;
  discoveryQuery := queries;
  settleOrder := fun cs => cs;
  tickSizes := fun _ => [];
  dbSearch := Some [ibm];
  MAX_ARTICLES_PER_COMPANY := max;
  configured := true;
  configCompanies := [("IBM", "IBM"); ("Apple", "AAPL")]
|}.

Definition art (u d : string) : Article :=
  mkArticle u "positive" (Some d) "title" "Example News" None.

Definition threePairs : list (PricePair Z) :=
  [mkPair "2018-01-20" 10%Z; mkPair "2018-01-25" 12%Z; mkPair "2018-01-30" 15%Z].

Definition news1 : Article := art "http://example.com/news/1" "2018-01-26".
Definition news2 : Article := art "http://example.com/news/2" "2018-01-25".
Definition news4 : Article := art "http://example.com/news/4" "2018-01-24".

(** A record whose ticker the market-data stand-in does not know. *)
Definition acme : Stock Z :=
  mkStock "Acme" (Some "ACME") (Some [news2])
          (Some (<["2018-01-25" := 7%Z]> ∅)).

(** A batch for two stored companies. *)
Definition acmeDatum : ArticleDatum := mkArticleDatum "Acme" [news1; news2].
Definition ibmDatum : ArticleDatum := mkArticleDatum "IBM" [news2].

End Sample.

(** ** Further vocabulary *)

Section MoreVocabulary.
Context `{E : Env}.

(** An article with its image set. *)
Definition setImage (a : Article) (image : string) : Article :=
  mkArticle (url a) (sentiment a) (date a) (title a) (source a) (Some image).

(** What one image result does to an article: its image, when the URLs
    are the same. *)
Definition attachTo (r : ImageResult) (a : Article) : Article :=
  if String.eqb (url a) (img_url r) then setImage a (img_imageURL r) else a.

(** An article with the image the resolver finds for it, if any. *)
Definition withOwnImage (a : Article) : Article :=
  match caught (getImageForArticle a) with
  | Some r => if keepImageResult (Some r) then setImage a (img_imageURL r) else a
  | None => a
  end.

(** The articles a fulfilled query yields, as the callback of
    [getArticleDataForCompany] packs them. *)
Definition datumOf (company : string) : ArticleDatum :=
  mkArticleDatum company
    match discoveryQuery company with
    | QueryOk results => filterDuplicates ∅ (parseResults results)
    | QueryFailed _ => []
    end.

(** The ticks in which the queries of a list of companies settle. *)
Definition queryTicks (companies : list string) : list (list string) :=
  ticksOf (tickSizes companies) (settleOrder companies).

Definition isFulfilled (company : string) : bool :=
  match discoveryQuery company with
  | QueryOk _ => true
  | QueryFailed _ => false
  end.

(** What the queries of one tick bring: the data of the fulfilled ones, the
    truthy reasons of the rejected ones, and whether one is rejected. *)
Definition tickData (tick : list string) : list ArticleDatum :=
  List.map datumOf (List.filter isFulfilled tick).

Definition tickErrors (tick : list string) : list Reason :=
  omap (fun company =>
          match discoveryQuery company with
          | QueryOk _ => None
          | QueryFailed reason => if reasonTruthy reason then Some reason else None
          end) tick.

Definition tickRejects (tick : list string) : bool :=
  existsb (fun company => negb (isFulfilled company)) tick.

(** URLs that are ordinary keys of a plain object. *)
Definition ordinaryKey (u : string) : Prop :=
  u <> "__proto__" /\ u <> "hasOwnProperty".

(** Every answer of the discovery service holds ordinary URLs only. *)
Definition ordinaryAnswers (companies : list string) : Prop :=
  forall c results, c ∈ companies -> discoveryQuery c = QueryOk results ->
    Forall ordinaryKey (List.map res_url results).

(** The companies a run works on: the given ones, or those of the store. *)
Definition companiesOfRun (companies : option (list string))
    (docs : list (Stock Price)) : list string :=
  match companies with
  | Some cs => cs
  | None => List.map company docs
  end.

(** What the cap of an insertion leaves out of the sorted merge. *)
Definition evictedArticles (stockDatum : Stock Price)
    (newArticles : list Article) : list Article :=
  if (0 <? length newArticles)%nat
  then skipn MAX_ARTICLES_PER_COMPANY
         (sortArticles (default [] (history stockDatum) ++ withImages newArticles))
  else [].

(** Two records of one company under one ticker. *)
Definition sameIdentity (s s' : Stock Price) : Prop :=
  company s' = company s /\ ticker s' = ticker s.

(** The URLs of the history of a record. *)
Definition historyUrls (s : Stock Price) : list string :=
  urls (default [] (history s)).

End MoreVocabulary.

(** ** More of the concrete environment *)

Module Sample2.

Definition news3 : Article := Sample.art "http://example.com/news/3" "2018-01-27".

(** Discovery answers among which one query rejects without a reason. *)
Definition queries (c : string) : QueryOutcome :=
  if String.eqb c "Ghost" then QueryFailed ReasonUndefined else Sample.queries c.

Definition env (max : nat) : Env := {|
  Price := Z;
  avDateStringToDate := Sample.dateKey;
  convertArticleDateToAVDate := fun d => d;
  convertPriceMapToList := Sample.priceList;
  extractHTTPURL := Sample.absoluteURL;
  extractDomain := Sample.schemeAndHost;
  jsDate := Sample.dateKey;
  request := Sample.pages;
  rootImgSrc := Sample.firstImgSrc;
  bodyImgSrc := Sample.firstImgSrc;
  getPriceHistoryForTicker := Sample.prices;
  discoveryQuery := queries;
  settleOrder := fun cs => cs;
  tickSizes := fun _ => [];
  dbSearch := Some [Sample.ibm];
  MAX_ARTICLES_PER_COMPANY := max;
  configured := true;
  configCompanies := [("IBM", "IBM"); ("Apple", "AAPL")]
|}.

(** The same environment with all the queries of a run settling within one
    tick. *)
Definition burst (max : nat) : Env := {|
  Price := Z;
  avDateStringToDate := Sample.dateKey;
  convertArticleDateToAVDate := fun d => d;
  convertPriceMapToList := Sample.priceList;
  extractHTTPURL := Sample.absoluteURL;
  extractDomain := Sample.schemeAndHost;
  jsDate := Sample.dateKey;
  request := Sample.pages;
  rootImgSrc := Sample.firstImgSrc;
  bodyImgSrc := Sample.firstImgSrc;
  getPriceHistoryForTicker := Sample.prices;
  discoveryQuery := queries;
  settleOrder := fun cs => cs;
  tickSizes := fun cs => [length cs];
  dbSearch := Some [Sample.ibm];
  MAX_ARTICLES_PER_COMPANY := max;
  configured := true;
  configCompanies := [("IBM", "IBM"); ("Apple", "AAPL")]
|}.

(** A datum that brings nothing new to the record of Acme, and one for a
    company without a record. *)
Definition quietDatum : ArticleDatum := mkArticleDatum "Acme" [Sample.news2].
Definition initechDatum : ArticleDatum := mkArticleDatum "Initech" [news3].
Definition appleDatum : ArticleDatum := mkArticleDatum "Apple" [news3].

(** A record whose history is as long as a cap of two allows. *)
Definition fullAcme : Stock Z :=
  mkStock "Acme" (Some "ACME") (Some [Sample.news2; Sample.news4]) None.

(** A stored article, an article without a date and a more recent one. *)
Definition oldest : Article := Sample.art "http://example.com/old" "2018-01-01".
Definition undated : Article :=
  mkArticle "http://example.com/undated" "positive" None "title" "Example News"
            None.
Definition newest : Article := Sample.art "http://example.com/new" "2018-01-03".
Definition oldStock : Stock Z :=
  mkStock "Acme" (Some "ACME") (Some [oldest]) None.

End Sample2.

(** ** Price alignment *)

Section PriceAlignment.
Context `{E : Env}.

Lemma dateGt_irrefl (a : option Z) : dateGt a a = false.
Proof. destruct a as [x|]; simpl; [apply Z.ltb_irrefl | reflexivity]. Qed.

Lemma dateGt_asym (a b : option Z) : dateGt a b = true -> dateGt b a = false.
Proof.
  destruct a as [x|], b as [y|]; simpl; try discriminate.
  intros Hlt. apply Z.ltb_lt in Hlt. apply Z.ltb_ge. lia.
Qed.

(** The loop walks over every pair that neither carries the target date nor
    lies after it, and remembers the last one. *)
Lemma getPairForDate_loop_skip date realDate thisPair pre rest :
  Forall (fun q => pair_date q <> date /\ dateGt (pairTime q) realDate = false) pre ->
  getPairForDate_loop date realDate thisPair (pre ++ rest)
  = getPairForDate_loop date realDate
      (match last pre with Some q => Some q | None => thisPair end) rest.
Proof.
  revert thisPair. induction pre as [|q pre IH]; intros thisPair Hpre.
  - reflexivity.
  - apply Forall_cons in Hpre as [[Hne Hgt] Hpre]. simpl.
    apply String.eqb_neq in Hne. rewrite Hne.
    unfold pairTime in Hgt. rewrite Hgt.
    rewrite (IH (Some q) Hpre). rewrite last_cons.
    destruct (last pre); reflexivity.
Qed.

Lemma truthy_nonempty (s : string) : s <> "" -> truthy (Some s) = true.
Proof. intros Hne. simpl. apply String.eqb_neq in Hne. now rewrite Hne. Qed.

(** C3. For every target date, the lookup over the empty price list is
    absent; and for every non-empty price list all of whose pairs are dated
    strictly before the target date, the lookup returns the last pair of
    the list. *)
Theorem getPairForDate_empty_or_after_all
    (date : string) (priceList : list (PricePair Price)) :
  (priceList = [] -> getPairForDate date priceList = None) /\
  (date <> "" -> priceList <> [] ->
   Forall (fun p => dateGt (avDateStringToDate date) (pairTime p) = true)
     priceList ->
   getPairForDate date priceList = last priceList).
Proof.
  split.
  - intros ->. unfold getPairForDate. destruct (negb (truthy (Some date))); reflexivity.
  - intros Hdate Hne Hall. unfold getPairForDate.
    rewrite (truthy_nonempty _ Hdate). simpl negb. cbv iota.
    assert (Hskip : Forall (fun q => pair_date q <> date
                /\ dateGt (pairTime q) (avDateStringToDate date) = false) priceList).
    { eapply Forall_impl; [exact Hall|]. intros q Hq. cbv beta in Hq. split.
      - intros Heq. unfold pairTime in Hq. rewrite Heq, dateGt_irrefl in Hq.
        discriminate.
      - now apply dateGt_asym. }
    pose proof (getPairForDate_loop_skip date (avDateStringToDate date) None
                  priceList [] Hskip) as Hloop.
    rewrite app_nil_r in Hloop. cbv zeta. rewrite Hloop. simpl.
    destruct (last priceList) as [lastPair|] eqn:Hlast.
    + assert (Hlen : (0 <? length priceList)%nat = true).
      { apply Nat.ltb_lt. destruct priceList; [discriminate | simpl; lia]. }
      rewrite Hlen. rewrite last_lookup in Hlast.
      replace (length priceList - 1)%nat with (pred (length priceList)) by lia.
      rewrite Hlast. simpl.
      assert (Hin : lastPair ∈ priceList) by (eapply list_elem_of_lookup_2; eauto).
      rewrite Forall_forall in Hall. specialize (Hall _ Hin).
      unfold pairTime in Hall. now rewrite Hall.
    + apply last_None in Hlast. contradiction.
Qed.

(** C4. For every non-empty target date and price list: when the first pair
    carrying the target date string sits in a list that is ascending by
    date, the lookup returns that pair; and when no pair up to the first
    one dated strictly after the target carries the target date string, the
    lookup returns the target date with the price of the pair just before
    that first later pair, or with the price of the later pair itself when
    it opens the list. *)
Theorem getPairForDate_exact_or_nearest_prior
    (date : string) (pre post : list (PricePair Price)) (p : PricePair Price) :
  date <> "" ->
  Forall (fun q => pair_date q <> date) pre ->
  (pair_date p = date -> ascendingByDate (pre ++ p :: post) ->
   getPairForDate date (pre ++ p :: post) = Some p) /\
  (pair_date p <> date ->
   Forall (fun q => dateGt (pairTime q) (avDateStringToDate date) = false) pre ->
   dateGt (pairTime p) (avDateStringToDate date) = true ->
   getPairForDate date (pre ++ p :: post)
   = Some (mkPair date
             match last pre with
             | Some previous => pair_price previous
             | None => pair_price p
             end)).
Proof.
  intros Hdate Hpre. split.
  - intros Hp Hsorted. unfold getPairForDate.
    rewrite (truthy_nonempty _ Hdate). simpl negb. cbv iota zeta.
    rewrite getPairForDate_loop_skip.
    + simpl. apply String.eqb_eq in Hp. now rewrite Hp.
    + apply StronglySorted_app in Hsorted as (Hcross & _ & _).
      rewrite Forall_forall in Hpre. apply Forall_forall. intros q Hq. split.
      * now apply Hpre.
      * specialize (Hcross q p Hq). unfold pairTime in *. rewrite <- Hp.
        apply Hcross. left.
  - intros Hp Hbefore Hafter. unfold getPairForDate.
    rewrite (truthy_nonempty _ Hdate). simpl negb. cbv iota zeta.
    rewrite getPairForDate_loop_skip.
    + simpl. apply String.eqb_neq in Hp. rewrite Hp.
      unfold pairTime in Hafter. rewrite Hafter.
      destruct (last pre); reflexivity.
    + rewrite Forall_forall in Hpre, Hbefore. apply Forall_forall.
      intros q Hq. split; [now apply Hpre | now apply Hbefore].
Qed.

End PriceAlignment.

(** ** Sorting, duplicates and the history cap *)

Section Merge.
Context `{E : Env}.

Lemma sortInsert_perm {A} (cmp : A -> A -> option Z) x l :
  sortInsert cmp x l ≡ₚ x :: l.
Proof.
  induction l as [|y l IH]; simpl; [reflexivity|].
  destruct (comesAfter cmp x y); [|reflexivity].
  rewrite IH. apply Permutation_swap.
Qed.

Lemma arraySort_perm {A} (cmp : A -> A -> option Z) l :
  arraySort cmp l ≡ₚ l.
Proof.
  induction l as [|x l IH]; simpl; [reflexivity|].
  rewrite sortInsert_perm. now rewrite IH.
Qed.

Lemma sortArticles_perm articles : sortArticles articles ≡ₚ articles.
Proof. apply arraySort_perm. Qed.

Lemma comesAfter_valid x y :
  validDate x -> validDate y ->
  if comesAfter compareArticles x y then atLeastAsRecent y x
  else atLeastAsRecent x y.
Proof.
  unfold validDate, comesAfter, compareArticles, atLeastAsRecent.
  intros [tx ->] [ty ->]. destruct (0 <? ty - tx)%Z eqn:Hcmp.
  - apply Z.ltb_lt in Hcmp. lia.
  - apply Z.ltb_ge in Hcmp. lia.
Qed.

Lemma atLeastAsRecent_trans a b c :
  atLeastAsRecent a b -> atLeastAsRecent b c -> atLeastAsRecent a c.
Proof.
  unfold atLeastAsRecent.
  destruct (articleTime a), (articleTime b), (articleTime c); try tauto. lia.
Qed.

Lemma sortInsert_sorted x l :
  validDate x -> Forall validDate l ->
  StronglySorted atLeastAsRecent l ->
  StronglySorted atLeastAsRecent (sortInsert compareArticles x l).
Proof.
  intros Hx. induction l as [|y l IH]; intros Hl Hs; simpl.
  - repeat constructor.
  - apply Forall_cons in Hl as [Hy Hl].
    apply StronglySorted_inv in Hs as [Hs Hy_le].
    pose proof (comesAfter_valid x y Hx Hy) as Hxy.
    destruct (comesAfter compareArticles x y).
    + constructor; [now apply IH|].
      rewrite (sortInsert_perm compareArticles x l). now constructor.
    + constructor; [now constructor|]. constructor; [exact Hxy|].
      eapply Forall_impl; [exact Hy_le|]. intros z Hz.
      now apply atLeastAsRecent_trans with y.
Qed.

Lemma sortArticles_sorted articles :
  Forall validDate articles ->
  StronglySorted atLeastAsRecent (sortArticles articles).
Proof.
  unfold sortArticles. induction articles as [|x l IH]; intros Hl; simpl.
  - constructor.
  - apply Forall_cons in Hl as [Hx Hl]. apply sortInsert_sorted; auto.
    now rewrite (arraySort_perm compareArticles l).
Qed.

Lemma articleContains_urls article articles :
  articleContains article articles = true <-> url article ∈ urls articles.
Proof.
  unfold urls. induction articles as [|x l IH]; simpl.
  - split; [discriminate | intros Hin; inversion Hin].
  - rewrite elem_of_cons. destruct (String.eqb_spec (url article) (url x)) as [Heq|Hne].
    + split; auto.
    + rewrite IH. tauto.
Qed.

Lemma filterNewArticles_filter existing incoming :
  filterNewArticles existing incoming
  = filter (fun a => url a ∉ urls existing) incoming.
Proof.
  unfold filterNewArticles. induction incoming as [|a l IH]; [reflexivity|].
  simpl. rewrite filter_cons, IH.
  destruct (articleContains a existing) eqn:Hc; simpl.
  - apply articleContains_urls in Hc. now rewrite decide_False by tauto.
  - rewrite decide_True; [reflexivity|]. intros Hin.
    apply articleContains_urls in Hin. congruence.
Qed.

Lemma capArticles_length l :
  length (capArticles l) = Nat.min MAX_ARTICLES_PER_COMPANY (length l).
Proof.
  unfold capArticles. destruct (Nat.ltb_spec MAX_ARTICLES_PER_COMPANY (length l)).
  - rewrite length_firstn. lia.
  - lia.
Qed.

Lemma capArticles_split l :
  exists evicted,
    capArticles l ++ evicted = l /\
    length evicted = (length l - MAX_ARTICLES_PER_COMPANY)%nat.
Proof.
  unfold capArticles. destruct (Nat.ltb_spec MAX_ARTICLES_PER_COMPANY (length l)).
  - exists (skipn MAX_ARTICLES_PER_COMPANY l). split.
    + apply firstn_skipn.
    + apply length_skipn.
  - exists []. split; [apply app_nil_r | simpl; lia].
Qed.

(** *** The image step *)

Lemma imageStep_same rs articles : Forall2 (imageStep rs) articles articles.
Proof.
  apply Forall_Forall2_diag, Forall_forall. intros a _.
  split; [reflexivity | now left].
Qed.

Lemma attachImage_step r articles :
  Forall2 (imageStep [r]) articles (attachImage r articles).
Proof.
  induction articles as [|a l IH]; simpl; [constructor|].
  destruct (String.eqb_spec (url a) (img_url r)) as [Heq|Hne].
  - constructor.
    + split; [reflexivity|]. right. exists r. simpl.
      split; [apply list_elem_of_singleton; reflexivity | auto].
    + apply imageStep_same.
  - constructor; [|exact IH]. split; [reflexivity | now left].
Qed.

Lemma imageStep_mono rs rs' a b :
  rs ⊆ rs' -> imageStep rs a b -> imageStep rs' a b.
Proof.
  intros Hsub [Hframe [Hsame | (r & Hr & Hu & Hi)]]; split; auto.
  right. exists r. auto.
Qed.

Lemma imageStep_trans rs a b c :
  imageStep rs a b -> imageStep rs b c -> imageStep rs a c.
Proof.
  intros [Hab Hab'] [Hbc Hbc']. split; [congruence|].
  assert (Hurl : url b = url a) by (apply (f_equal url) in Hab; exact Hab).
  destruct Hbc' as [Hsame | (r & Hr & Hu & Hi)].
  - rewrite Hsame. exact Hab'.
  - right. exists r. rewrite <- Hurl. auto.
Qed.

Lemma attachImages_step imgResults articles :
  Forall2 (imageStep imgResults) articles (attachImages imgResults articles).
Proof.
  unfold attachImages. revert articles.
  induction imgResults as [|r rs IH]; intros articles; simpl.
  - apply imageStep_same.
  - eapply Forall2_trans; [| apply (attachImage_step r articles) | apply IH].
    intros a b c Hab Hbc. eapply imageStep_trans.
    + eapply imageStep_mono; [|exact Hab].
      intros x Hx. apply list_elem_of_singleton in Hx as ->. left.
    + eapply imageStep_mono; [|exact Hbc]. intros x Hx. now right.
Qed.

Lemma imageStep_withoutImage rs l l' :
  Forall2 (imageStep rs) l l' ->
  List.map withoutImage l' = List.map withoutImage l.
Proof.
  induction 1 as [|a b l l' [Hab _] _ IH]; simpl; [reflexivity|].
  now rewrite Hab, IH.
Qed.

Lemma withoutImage_urls l l' :
  List.map withoutImage l' = List.map withoutImage l -> urls l' = urls l.
Proof.
  intros Heq. unfold urls.
  assert (Hu : forall k, List.map url k = List.map url (List.map withoutImage k)).
  { intros k. rewrite List.map_map. reflexivity. }
  rewrite (Hu l'), (Hu l). now rewrite Heq.
Qed.

Lemma withoutImage_valid l l' :
  List.map withoutImage l' = List.map withoutImage l ->
  Forall validDate l -> Forall validDate l'.
Proof.
  revert l'. induction l as [|a l IH]; intros [|b l'] Heq Hl;
    try discriminate; [constructor|].
  cbn [List.map] in Heq.
  assert (Hab : withoutImage b = withoutImage a) by congruence.
  assert (Hrest : List.map withoutImage l' = List.map withoutImage l)
    by congruence.
  apply Forall_cons in Hl as [Ha Hl]. constructor; [|now apply IH].
  unfold validDate, articleTime in *.
  apply (f_equal date) in Hab. simpl in Hab. now rewrite Hab.
Qed.

Lemma resolvedImages_origin newArticles :
  Forall (fun r => exists a, a ∈ newArticles /\
                     getImageForArticle a = Resolved (Some r))
    (resolvedImages newArticles).
Proof.
  unfold resolvedImages, getImages. apply Forall_forall. intros r Hr.
  apply list_elem_of_omap in Hr as (t & Ht & Hkeep).
  apply list_elem_of_In, List.in_map_iff in Ht as (a & Hcaught & Ha).
  exists a. split; [now apply list_elem_of_In|].
  destruct (keepImageResult t); [|discriminate]. subst t.
  unfold caught in Hkeep. destruct (getImageForArticle a) as [v|]; [|discriminate].
  now subst v.
Qed.

Lemma insertNewArticles_eq stockDatum newArticles :
  insertNewArticles stockDatum newArticles
  = (let updated :=
       mkStock (company stockDatum) (ticker stockDatum)
         (Some (capArticles (sortArticles
                  (default [] (history stockDatum) ++ withImages newArticles))))
         (price_history stockDatum) in
     (updated, [updated])).
Proof. reflexivity. Qed.

Lemma filter_none {A} (P : A -> Prop) `{forall x, Decision (P x)} (l : list A) :
  Forall (fun x => ~ P x) l -> filter P l = [].
Proof.
  induction 1 as [|x l Hx _ IH]; [reflexivity|].
  now rewrite filter_cons, decide_False.
Qed.

Lemma merged_length existing newArticles :
  length (sortArticles (existing ++ withImages newArticles))
  = (length existing + length newArticles)%nat.
Proof.
  rewrite sortArticles_perm, length_app. f_equal.
  pose proof (imageStep_withoutImage _ _ _
    (attachImages_step (resolvedImages newArticles) newArticles)) as Hframe.
  apply (f_equal (@length _)) in Hframe. now rewrite !length_map in Hframe.
Qed.

(** *** The claims on the merge *)

(** C7. For every existing history and incoming batch, the new articles are
    exactly the incoming articles, in their order, whose URL does not occur
    among the URLs of the existing articles; so existing articles with the
    URLs a and b and incoming articles with the URLs b and c give the
    article with the URL c as the only new article. *)
Theorem newArticles_are_the_unknown_urls :
  (forall existing incoming,
     filterNewArticles existing incoming
     = filter (fun article => url article ∉ urls existing) incoming) /\
  (forall a b b' c,
     url a = "a" -> url b = "b" -> url b' = "b" -> url c = "c" ->
     filterNewArticles [a; b] [b'; c] = [c]).
Proof.
  split; [apply filterNewArticles_filter|].
  intros a b b' c Ha Hb Hb' Hc. unfold filterNewArticles. simpl.
  rewrite Ha, Hb, Hb', Hc. reflexivity.
Qed.

(** C10. The image step of an insertion only sets the image of new
    articles: the results it works from are the ones resolved for the new
    articles; each new article keeps all its other fields, and its image is
    either what it was or the image of a result carrying exactly its URL;
    and the stored history, with what the cap evicted, is a rearrangement of
    the existing articles as they were and the new articles after the
    step. *)
Theorem image_attachment_frame
    (stockDatum : Stock Price) (newArticles : list Article) :
  getImages newArticles = Resolved (resolvedImages newArticles) /\
  Forall (fun r => exists a, a ∈ newArticles /\
                     getImageForArticle a = Resolved (Some r))
    (resolvedImages newArticles) /\
  Forall2 (imageStep (resolvedImages newArticles))
    newArticles (withImages newArticles) /\
  exists evicted,
    default [] (history (insertNewArticles stockDatum newArticles).1) ++ evicted
    ≡ₚ default [] (history stockDatum) ++ withImages newArticles.
Proof.
  split; [reflexivity|]. split; [apply resolvedImages_origin|].
  split; [apply attachImages_step|].
  rewrite insertNewArticles_eq. simpl.
  destruct (capArticles_split (sortArticles
              (default [] (history stockDatum) ++ withImages newArticles)))
    as (evicted & Hsplit & _).
  exists evicted. rewrite Hsplit. apply sortArticles_perm.
Qed.

(** X24. After an insertion the stored history is never longer than the
    configured maximum; when the existing and the new articles together
    exceed the maximum, it has exactly the maximum length and, all dates
    being valid, every stored article is at least as recent as every
    evicted one. *)
Theorem history_capped_to_most_recent
    (stockDatum : Stock Price) (newArticles : list Article) :
  let existing := default [] (history stockDatum) in
  let stored := default [] (history (insertNewArticles stockDatum newArticles).1) in
  (length stored <= MAX_ARTICLES_PER_COMPANY)%nat /\
  ((MAX_ARTICLES_PER_COMPANY < length existing + length newArticles)%nat ->
   length stored = MAX_ARTICLES_PER_COMPANY /\
   (Forall validDate (existing ++ newArticles) ->
    exists evicted,
      stored ++ evicted ≡ₚ existing ++ withImages newArticles /\
      forall kept old, kept ∈ stored -> old ∈ evicted ->
                       atLeastAsRecent kept old)).
Proof.
  intros existing stored. subst stored. rewrite insertNewArticles_eq. simpl.
  fold existing.
  pose proof (attachImages_step (resolvedImages newArticles) newArticles) as Hstep.
  fold (withImages newArticles) in Hstep.
  pose proof (imageStep_withoutImage _ _ _ Hstep) as Hframe.
  pose proof (merged_length existing newArticles) as Hlen.
  split.
  - rewrite capArticles_length. lia.
  - intros Hover. split; [rewrite capArticles_length; lia|].
    intros Hvalid.
    destruct (capArticles_split (sortArticles (existing ++ withImages newArticles)))
      as (evicted & Hsplit & _).
    exists evicted. split; [rewrite Hsplit; apply sortArticles_perm|].
    assert (Hvalid' : Forall validDate (existing ++ withImages newArticles)).
    { apply Forall_app in Hvalid as [Hex Hnew]. apply Forall_app. split; auto.
      eapply withoutImage_valid; eauto. }
    pose proof (sortArticles_sorted _ Hvalid') as Hsorted.
    rewrite <- Hsplit in Hsorted.
    apply StronglySorted_app in Hsorted as (Hcross & _ & _).
    intros kept old Hkept Hold. now apply Hcross.
Qed.

(** Without eviction, an update leaves a history against which the same
    batch has no new article. *)
Lemma updateStockDatum_absorbs_batch
    (stockDatum : Stock Price) (incoming : list Article) :
  let existing := default [] (history stockDatum) in
  let newArticles := filterNewArticles existing incoming in
  (length existing + length newArticles <= MAX_ARTICLES_PER_COMPANY)%nat ->
  filterNewArticles
    (default [] (history (updateStockDatum stockDatum existing newArticles).1))
    incoming = [].
Proof.
  intros existing newArticles Hfit.
  assert (Hinsert : forall s, default [] (history s) = existing ->
            filterNewArticles
              (default [] (history (insertNewArticles s newArticles).1))
              incoming = []).
  { intros s Hs. rewrite insertNewArticles_eq. simpl. rewrite Hs.
    pose proof (attachImages_step (resolvedImages newArticles) newArticles) as Hstep.
    fold (withImages newArticles) in Hstep.
    pose proof (imageStep_withoutImage _ _ _ Hstep) as Hframe.
    assert (Hcap : capArticles (sortArticles (existing ++ withImages newArticles))
                   = sortArticles (existing ++ withImages newArticles)).
    { unfold capArticles. rewrite merged_length.
      destruct (Nat.ltb_spec MAX_ARTICLES_PER_COMPANY
        (length existing + length newArticles)); [lia | reflexivity]. }
    rewrite Hcap, filterNewArticles_filter.
    apply filter_none, Forall_forall. intros a Ha Hfresh. apply Hfresh.
    destruct (decide (url a ∈ urls existing)) as [Hold|Hnew].
    - unfold urls in *. rewrite sortArticles_perm, map_app.
      apply elem_of_app. now left.
    - assert (Hin : a ∈ newArticles).
      { unfold newArticles. rewrite filterNewArticles_filter.
        apply list_elem_of_filter. auto. }
      pose proof (withoutImage_urls _ _ Hframe) as Hurls.
      unfold urls in *. rewrite sortArticles_perm, map_app.
      apply elem_of_app. right. rewrite Hurls.
      apply list_elem_of_fmap. exists a. auto. }
  unfold updateStockDatum.
  destruct (0 <? length newArticles)%nat eqn:Hsome.
  - destruct (getLatestStockPrices stockDatum) as [updatedStock|] eqn:Hprices.
    + apply Hinsert. simpl. unfold getLatestStockPrices in Hprices.
      destruct (ticker stockDatum) as [t|]; [|discriminate].
      destruct (truthy (Some t)); [|discriminate].
      destruct (getPriceHistoryForTicker t); [|discriminate].
      injection Hprices as <-. reflexivity.
    + now apply Hinsert.
  - apply Nat.ltb_ge in Hsome. simpl. fold existing.
    destruct newArticles eqn:Hnil; [exact Hnil | simpl in Hsome; lia].
Qed.

(** When the existing and the new articles together do not exceed the
    configured maximum, an update of a record with an incoming batch leaves
    a history against which the same batch has no new article: the URL of
    every incoming article occurs in that history. *)
Theorem second_merge_has_no_new_articles
    (stockDatum : Stock Price) (incoming : list Article) :
  let existing := default [] (history stockDatum) in
  let newArticles := filterNewArticles existing incoming in
  let merged :=
    default [] (history (updateStockDatum stockDatum existing newArticles).1) in
  (length existing + length newArticles <= MAX_ARTICLES_PER_COMPANY)%nat ->
  filterNewArticles merged incoming = [] /\
  Forall (fun article => url article ∈ urls merged) incoming.
Proof.
  intros existing newArticles merged Hfit.
  pose proof (updateStockDatum_absorbs_batch stockDatum incoming Hfit) as Hnil.
  fold existing newArticles merged in Hnil. split; [exact Hnil|].
  apply Forall_forall. intros a Ha.
  destruct (decide (url a ∈ urls merged)) as [Hin|Hout]; [exact Hin|].
  exfalso. rewrite filterNewArticles_filter in Hnil.
  assert (Hnew : a ∈ filter (fun article => url article ∉ urls merged) incoming)
    by (apply list_elem_of_filter; auto).
  rewrite Hnil in Hnew. inversion Hnew.
Qed.

(** What an update does when the price fetch fails: the new articles are
    merged and the record goes to the store with the prices it had. *)
Lemma updateStockDatum_price_failure
    (stockDatum : Stock Price) (existingArticles newArticles : list Article) :
  newArticles <> [] ->
  (forall t, ticker stockDatum = Some t -> getPriceHistoryForTicker t = None) ->
  getLatestStockPrices stockDatum = Rejected /\
  updateStockDatum stockDatum existingArticles newArticles
  = (let updated :=
       mkStock (company stockDatum) (ticker stockDatum)
         (Some (capArticles (sortArticles
                  (default [] (history stockDatum) ++ withImages newArticles))))
         (price_history stockDatum) in
     (updated, [updated])).
Proof.
  intros Hnew Hfetch.
  assert (Hrej : getLatestStockPrices stockDatum = Rejected).
  { unfold getLatestStockPrices. destruct (ticker stockDatum) as [t|]; [|reflexivity].
    rewrite (Hfetch t eq_refl). now destruct (truthy (Some t)). }
  split; [exact Hrej|]. unfold updateStockDatum. rewrite Hrej.
  assert (Hlen : (0 <? length newArticles)%nat = true).
  { apply Nat.ltb_lt. destruct newArticles; [contradiction | simpl; lia]. }
  now rewrite Hlen, insertNewArticles_eq.
Qed.

End Merge.

(** ** The batch *)

Section Batch.
Context `{E : Env}.

Lemma findStockDatum_Some stockData name i s :
  findStockDatum stockData name = Some (i, s) ->
  stockData !! i = Some s /\ company s = name.
Proof.
  revert i. induction stockData as [|x l IH]; intros i; simpl; [discriminate|].
  destruct (String.eqb_spec (company x) name) as [Heq|Hne].
  - intros [= <- <-]. auto.
  - destruct (findStockDatum l name) as [[j s']|]; simpl; [|discriminate].
    intros [= <- <-]. simpl. now apply IH.
Qed.

Lemma findStockDatum_app stockData extra name i s :
  findStockDatum stockData name = Some (i, s) ->
  findStockDatum (stockData ++ extra) name = Some (i, s).
Proof.
  revert i. induction stockData as [|x l IH]; intros i; simpl; [discriminate|].
  destruct (String.eqb (company x) name); [auto|].
  destruct (findStockDatum l name) as [[j s']|]; simpl; [|discriminate].
  intros [= <- <-]. now rewrite (IH j eq_refl).
Qed.

Lemma findStockDatum_new stockData x name :
  findStockDatum stockData name = None ->
  findStockDatum (stockData ++ [x]) name
  = if String.eqb (company x) name then Some (length stockData, x) else None.
Proof.
  induction stockData as [|y l IH]; simpl.
  - intros _. now destruct (String.eqb (company x) name).
  - destruct (String.eqb (company y) name); [discriminate|].
    destruct (findStockDatum l name) as [[j s']|]; simpl; [discriminate|].
    intros _. rewrite (IH eq_refl).
    now destruct (String.eqb (company x) name).
Qed.

Lemma findStockDatum_app_None stockData extra name :
  findStockDatum stockData name = None ->
  Forall (fun s => company s <> name) extra ->
  findStockDatum (stockData ++ extra) name = None.
Proof.
  intros Hnone Hextra. induction stockData as [|y l IH]; simpl in *.
  - induction Hextra as [|x e Hx _ IHe]; simpl; [reflexivity|].
    apply String.eqb_neq in Hx. now rewrite Hx, IHe.
  - destruct (String.eqb (company y) name); [discriminate|].
    destruct (findStockDatum l name) as [[j s']|]; [discriminate|].
    now rewrite IH.
Qed.

Lemma recordFor_other stockData extra name :
  Forall (fun s => company s <> name) extra ->
  recordFor (stockData ++ extra) name = recordFor stockData name.
Proof.
  intros Hextra. unfold recordFor.
  destruct (findStockDatum stockData name) as [[i s]|] eqn:Hfind.
  - now rewrite (findStockDatum_app _ extra _ _ _ Hfind).
  - now rewrite (findStockDatum_app_None _ _ _ Hfind Hextra).
Qed.

Lemma Forall2_impl_elem {A B} (P Q : A -> B -> Prop) l k :
  Forall2 P l k -> (forall x y, x ∈ l -> P x y -> Q x y) -> Forall2 Q l k.
Proof.
  induction 1 as [|x y l k Hxy _ IH]; intros Himpl; constructor.
  - apply Himpl; [left | exact Hxy].
  - apply IH. intros x' y' Hx'. apply Himpl. now right.
Qed.

Lemma startUpdate_spec results d :
  exists extra,
    (startUpdate results d).1 = results ++ extra /\
    Forall (fun s => company s = ad_company d) extra /\
    taskOf results (results ++ extra) d (startUpdate results d).2.
Proof.
  unfold startUpdate, taskOf, newArticlesFor, recordFor.
  destruct (findStockDatum results (ad_company d)) as [[i s]|] eqn:Hfind.
  - exists []. simpl. rewrite app_nil_r. rewrite Hfind. auto.
  - exists [newStockDatum (ad_company d)]. simpl.
    rewrite (findStockDatum_new _ _ _ Hfind). simpl.
    rewrite String.eqb_refl. repeat split. now constructor.
Qed.

Lemma startUpdates_spec articleData : forall results tasks,
  NoDup (List.map ad_company articleData) ->
  exists extra ts,
    fold_left
      (fun '(results, tasks) articleDatum =>
         let '(results, task) := startUpdate results articleDatum in
         (results, tasks ++ [task]))
      articleData (results, tasks)
    = (results ++ extra, tasks ++ ts) /\
    Forall2 (taskOf results (results ++ extra)) articleData ts.
Proof.
  induction articleData as [|d ds IH]; intros results tasks Hnodup.
  - exists [], []. simpl. rewrite !app_nil_r. split; [reflexivity | constructor].
  - apply NoDup_cons in Hnodup as [Hfresh Hnodup]. cbn [List.map] in Hfresh.
    destruct (startUpdate_spec results d) as (extra0 & Hres & Hcomp & Htask).
    cbn [fold_left]. destruct (startUpdate results d) as [results' t] eqn:Hstart.
    simpl in Hres, Htask. subst results'.
    destruct (IH (results ++ extra0) (tasks ++ [t]) Hnodup)
      as (extra & ts & Hfold & Hrel).
    exists (extra0 ++ extra), (t :: ts). rewrite Hfold, <- !app_assoc.
    split; [reflexivity|]. rewrite (app_assoc results). constructor.
    + destruct Htask as (Hfind & Hrest). split; [|exact Hrest].
      now apply findStockDatum_app.
    + eapply Forall2_impl_elem; [exact Hrel|]. intros d' t' Hd'.
      assert (Hother : recordFor (results ++ extra0) (ad_company d')
                       = recordFor results (ad_company d')).
      { apply recordFor_other. eapply Forall_impl; [exact Hcomp|].
        intros s Hs Heq. cbv beta in Hs. apply Hfresh.
        rewrite <- Hs, Heq. apply list_elem_of_fmap. now exists d'. }
      unfold taskOf, newArticlesFor. now rewrite Hother.
Qed.

Lemma taskOf_indices stockData results articleData ts :
  NoDup (List.map ad_company articleData) ->
  Forall2 (taskOf stockData results) articleData ts ->
  NoDup (List.map task_index ts).
Proof.
  intros Hnodup Hrel. induction Hrel as [|d t ds ts Hdt Hrel IH]; [constructor|].
  apply NoDup_cons in Hnodup as [Hfresh Hnodup]. cbn [List.map].
  apply NoDup_cons. split; [|now apply IH].
  intros Hin. apply list_elem_of_fmap in Hin as (t' & Hidx & Ht').
  apply list_elem_of_lookup in Ht' as [k Hk].
  destruct (Forall2_lookup_r _ _ _ _ _ Hrel Hk) as (d' & Hd' & Hd't').
  destruct Hdt as [Hfind _], Hd't' as [Hfind' _].
  apply findStockDatum_Some in Hfind as [Hlook Hcomp].
  apply findStockDatum_Some in Hfind' as [Hlook' Hcomp'].
  rewrite <- Hidx, Hlook in Hlook'. injection Hlook' as Hsame.
  apply Hfresh. cbn [List.map]. rewrite <- Hcomp, Hsame, Hcomp'.
  apply list_elem_of_fmap. exists d'. split; [reflexivity|].
  eapply list_elem_of_lookup_2; eauto.
Qed.

(** The asynchronous parts of executors with distinct records do not
    disturb one another. *)
Lemma finishUpdates_spec ts : forall results writes,
  NoDup (List.map task_index ts) ->
  (forall t s, t ∈ ts -> results !! task_index t = Some s ->
     (fold_left finishUpdate ts (results, writes)).1 !! task_index t
     = Some (updateStockDatum s (task_existing t) (task_new t)).1 /\
     forall w, w ∈ (updateStockDatum s (task_existing t) (task_new t)).2 ->
               w ∈ (fold_left finishUpdate ts (results, writes)).2) /\
  (forall w, w ∈ writes -> w ∈ (fold_left finishUpdate ts (results, writes)).2) /\
  (forall j, j ∉ List.map task_index ts ->
     (fold_left finishUpdate ts (results, writes)).1 !! j = results !! j).
Proof.
  induction ts as [|t0 ts IH]; intros results writes Hnodup.
  - simpl. split; [|auto]. intros t s Ht. inversion Ht.
  - apply NoDup_cons in Hnodup as [Hfresh Hnodup]. cbn [List.map] in Hfresh.
    cbn [fold_left].
    assert (Hstep : exists results' writes',
              finishUpdate (results, writes) t0 = (results', writes') /\
              (forall j, j <> task_index t0 -> results' !! j = results !! j) /\
              (forall w, w ∈ writes -> w ∈ writes') /\
              (forall s, results !! task_index t0 = Some s ->
                 results' !! task_index t0
                 = Some (updateStockDatum s (task_existing t0) (task_new t0)).1 /\
                 forall w, w ∈ (updateStockDatum s (task_existing t0) (task_new t0)).2 ->
                           w ∈ writes')).
    { unfold finishUpdate.
      destruct (results !! task_index t0) as [s0|] eqn:Hlook.
      - destruct (updateStockDatum s0 (task_existing t0) (task_new t0))
          as [u0 w0] eqn:Hupd.
        eexists _, _. split; [reflexivity|]. split; [|split].
        + intros j Hj. now apply list_lookup_insert_ne.
        + intros w Hw. apply elem_of_app. now left.
        + intros s [= <-]. rewrite Hupd. simpl. split.
          * apply list_lookup_insert_eq. now apply lookup_lt_Some in Hlook.
          * intros w Hw. apply elem_of_app. now right.
      - eexists _, _. split; [reflexivity|]. split; [auto|]. split; [auto|].
        intros s Hs. discriminate. }
    destruct Hstep as (results' & writes' & -> & Hothers & Hkeep & Hself).
    destruct (IH results' writes' Hnodup) as (Htasks & Hwrites & Hrest).
    split; [|split].
    + intros t s Ht Hlook. apply elem_of_cons in Ht as [->|Ht].
      * destruct (Hself s Hlook) as [Hres Hw]. split.
        -- now rewrite (Hrest _ Hfresh).
        -- intros w Hin. apply Hwrites. now apply Hw.
      * apply Htasks; [exact Ht|]. rewrite Hothers; [exact Hlook|].
        intros Heq. apply Hfresh. rewrite <- Heq.
        apply list_elem_of_fmap. now exists t.
    + intros w Hw. apply Hwrites. now apply Hkeep.
    + intros j Hj. rewrite Hrest.
      * apply Hothers. intros ->. apply Hj. cbn [List.map]. left.
      * intros Hin. apply Hj. cbn [List.map]. now right.
Qed.

(** In a batch over distinct companies, every company ends with the record
    its own executor makes, and the writes of that executor reach the
    store. *)
Lemma updateStocksData_company articleData stockData d :
  NoDup (List.map ad_company articleData) ->
  d ∈ articleData ->
  exists i,
    (updateStocksData articleData stockData).1 !! i
    = Some (updateFor stockData d).1 /\
    forall w, w ∈ (updateFor stockData d).2 ->
              w ∈ (updateStocksData articleData stockData).2.
Proof.
  intros Hnodup Hd. unfold updateStocksData, startUpdates.
  destruct (startUpdates_spec articleData stockData [] Hnodup)
    as (extra & ts & -> & Hrel). simpl app.
  pose proof (taskOf_indices _ _ _ _ Hnodup Hrel) as Hidx.
  apply list_elem_of_lookup in Hd as [k Hk].
  destruct (Forall2_lookup_l _ _ _ _ _ Hrel Hk) as (t & Ht & Hfind & Hex & Hnew).
  apply findStockDatum_Some in Hfind as [Hlook _].
  destruct (finishUpdates_spec ts (stockData ++ extra) [] Hidx) as (Htasks & _ & _).
  destruct (Htasks t _ (list_elem_of_lookup_2 _ _ _ Ht) Hlook) as [Hres Hw].
  exists (task_index t). unfold updateFor. rewrite <- Hex, <- Hnew. auto.
Qed.

(** One step of the batch on a record whose price fetch fails: the record
    is replaced by the merged one, which goes to the store, and every other
    record is untouched. *)
Lemma finishUpdate_price_failure
    (results writes : list (Stock Price)) (task : Task) (stockDatum : Stock Price) :
  results !! task_index task = Some stockDatum ->
  task_new task <> [] ->
  (forall t, ticker stockDatum = Some t -> getPriceHistoryForTicker t = None) ->
  exists updated,
    finishUpdate (results, writes) task
    = (<[task_index task := updated]> results, writes ++ [updated]) /\
    price_history updated = price_history stockDatum /\
    history updated
    = Some (capArticles (sortArticles
              (default [] (history stockDatum) ++ withImages (task_new task)))) /\
    company updated = company stockDatum /\
    ticker updated = ticker stockDatum /\
    (forall j, j <> task_index task ->
       (finishUpdate (results, writes) task).1 !! j = results !! j) /\
    (forall tasks,
       fold_left finishUpdate (task :: tasks) (results, writes)
       = fold_left finishUpdate tasks
           (<[task_index task := updated]> results, writes ++ [updated])).
Proof.
  intros Hrecord Hnew Hfetch.
  destruct (updateStockDatum_price_failure stockDatum (task_existing task)
              (task_new task) Hnew Hfetch) as [_ Hupdate].
  cbv zeta in Hupdate.
  set (updated := mkStock (company stockDatum) (ticker stockDatum)
         (Some (capArticles (sortArticles
                  (default [] (history stockDatum) ++ withImages (task_new task)))))
         (price_history stockDatum)) in *.
  exists updated.
  assert (Hstep : finishUpdate (results, writes) task
                  = (<[task_index task := updated]> results, writes ++ [updated])).
  { unfold finishUpdate. rewrite Hrecord, Hupdate. reflexivity. }
  split; [exact Hstep|]. do 4 (split; [reflexivity|]). split.
  - intros j Hj. rewrite Hstep. simpl. now apply list_lookup_insert_ne.
  - intros tasks. cbn [fold_left]. now rewrite Hstep.
Qed.

(** C8. In a batch over distinct companies, for every company whose list of
    new articles is not empty and whose price fetch fails (its record has no
    ticker, or the market-data client rejects): the record of the company in
    the result of the batch has the new articles merged into its history and
    the price history, company and ticker it had; that record is handed to
    the store; and every company of the batch ends with the record its own
    executor makes. *)
Theorem price_failure_keeps_stored_prices
    (articleData : list ArticleDatum) (stockData : list (Stock Price))
    (d : ArticleDatum) :
  NoDup (List.map ad_company articleData) ->
  d ∈ articleData ->
  let stockDatum := recordFor stockData (ad_company d) in
  let newArticles := newArticlesFor stockData d in
  newArticles <> [] ->
  (forall t, ticker stockDatum = Some t -> getPriceHistoryForTicker t = None) ->
  let updated :=
    mkStock (company stockDatum) (ticker stockDatum)
      (Some (capArticles (sortArticles
               (default [] (history stockDatum) ++ withImages newArticles))))
      (price_history stockDatum) in
  getLatestStockPrices stockDatum = Rejected /\
  updated ∈ (updateStocksData articleData stockData).1 /\
  updated ∈ (updateStocksData articleData stockData).2 /\
  (forall d', d' ∈ articleData ->
     (updateFor stockData d').1 ∈ (updateStocksData articleData stockData).1).
Proof.
  intros Hnodup Hd stockDatum newArticles Hnew Hfetch updated.
  destruct (updateStockDatum_price_failure stockDatum
              (default [] (history stockDatum)) newArticles Hnew Hfetch)
    as [Hrej Hupdate].
  cbv zeta in Hupdate. fold updated in Hupdate.
  assert (Hfor : updateFor stockData d = (updated, [updated])) by exact Hupdate.
  split; [exact Hrej|].
  destruct (updateStocksData_company articleData stockData d Hnodup Hd)
    as (i & Hres & Hwrites).
  rewrite Hfor in Hres, Hwrites. simpl in Hres, Hwrites.
  split; [eapply list_elem_of_lookup_2; eauto|].
  split; [apply Hwrites, list_elem_of_singleton; reflexivity|].
  intros d' Hd'.
  destruct (updateStocksData_company articleData stockData d' Hnodup Hd')
    as (i' & Hres' & _).
  eapply list_elem_of_lookup_2; eauto.
Qed.

End Batch.

(** ** The image resolver *)

Section Images.
Context `{E : Env}.

Lemma truthy_Some (v : option string) :
  truthy v = true -> exists s, v = Some s /\ s <> "".
Proof.
  destruct v as [s|]; simpl; [|discriminate]. intros Hs. exists s.
  split; [reflexivity|]. intros ->. discriminate.
Qed.

(** The resolver on a page that was fetched and holds a usable [src]. *)
Lemma getImageForArticle_found article html src :
  request (url article) = Some html ->
  findImgSrc html = Some src -> src <> "" ->
  getImageForArticle article
  = Resolved (Some (mkImageResult (url article)
      (if truthy (extractHTTPURL src) then default "" (extractHTTPURL src)
       else extractDomain (url article) +:+ "/" +:+ sliceLeadingSlash src))).
Proof.
  intros Hpage Hsrc Hne. unfold getImageForArticle.
  rewrite Hpage, Hsrc, (truthy_nonempty _ Hne).
  destruct (extractHTTPURL src) as [h|]; [|reflexivity].
  now destruct (truthy (Some h)).
Qed.

(** C9. For every article whose page holds an image [src] that is not an
    absolute HTTP URL, the resolved image URL is the domain of the article
    URL, a slash, and the [src] without its first character when that is a
    slash, the whole [src] otherwise. *)
Theorem relative_image_url_joined_to_domain
    (article : Article) (html src : string) :
  request (url article) = Some html ->
  findImgSrc html = Some src -> src <> "" ->
  truthy (extractHTTPURL src) = false ->
  (forall path, src = "/" +:+ path ->
     getImageForArticle article
     = Resolved (Some (mkImageResult (url article)
                         (extractDomain (url article) +:+ "/" +:+ path)))) /\
  ((forall path, src <> "/" +:+ path) ->
     getImageForArticle article
     = Resolved (Some (mkImageResult (url article)
                         (extractDomain (url article) +:+ "/" +:+ src)))).
Proof.
  intros Hpage Hsrc Hne Hrel.
  rewrite (getImageForArticle_found article html src Hpage Hsrc Hne), Hrel.
  split.
  - intros path ->. reflexivity.
  - intros Hnoslash. destruct src as [|c rest]; [reflexivity|].
    destruct (Ascii.eqb_spec c "/"%char) as [->|Hc].
    + exfalso. now apply (Hnoslash rest).
    + simpl. destruct c as [[] [] [] [] [] [] [] []]; try reflexivity.
      now contradiction Hc.
Qed.

(** C2, amended. The promise of the resolver rejects when the page cannot
    be fetched; it resolves with nothing when the page holds no usable
    image, and with a result for the article URL otherwise. The batch
    variant always resolves, with results that the resolver resolved for
    articles of the batch. *)
Theorem image_resolver_settlement (article : Article) :
  (request (url article) = None -> getImageForArticle article = Rejected) /\
  (forall html, request (url article) = Some html ->
     (truthy (findImgSrc html) = false ->
      getImageForArticle article = Resolved None) /\
     (truthy (findImgSrc html) = true ->
      exists imageURL,
        getImageForArticle article
        = Resolved (Some (mkImageResult (url article) imageURL)))) /\
  (forall articles,
     getImages articles = Resolved (resolvedImages articles) /\
     Forall (fun r => exists a, a ∈ articles /\
                        getImageForArticle a = Resolved (Some r))
       (resolvedImages articles)).
Proof.
  split; [|split].
  - intros Hfail. unfold getImageForArticle. now rewrite Hfail.
  - intros html Hpage. split.
    + intros Hnone. unfold getImageForArticle. rewrite Hpage.
      destruct (findImgSrc html) as [src|]; [|reflexivity]. now rewrite Hnone.
    + intros Hsome. apply truthy_Some in Hsome as (src & Hsrc & Hne).
      rewrite (getImageForArticle_found article html src Hpage Hsrc Hne).
      eexists. reflexivity.
  - intros articles. split; [reflexivity | apply resolvedImages_origin].
Qed.

End Images.

(** ** The discovery fan-out and the run *)

Section Run.
Context `{E : Env}.

Lemma reasonToString_truthy reason :
  reasonTruthy reason = true -> truthy (Some (reasonToString reason)) = true.
Proof.
  destruct reason as [|text|message]; simpl; [discriminate | auto |].
  intros _. now destruct (String.eqb message "").
Qed.

Lemma settleTick_closed_form tick articleData errors rejected :
  settleTick tick articleData errors rejected
  = (articleData ++ tickData tick, errors ++ tickErrors tick,
     rejected || tickRejects tick).
Proof.
  revert articleData errors rejected.
  induction tick as [|c tick IH]; intros articleData errors rejected.
  - simpl. now rewrite !app_nil_r, orb_false_r.
  - unfold tickData, tickErrors, tickRejects, isFulfilled, datumOf in *.
    simpl. destruct (discoveryQuery c) as [results|reason] eqn:Hc.
    + rewrite IH. simpl. rewrite Hc. now rewrite <- app_assoc.
    + rewrite IH. simpl. rewrite orb_true_r.
      destruct (reasonTruthy reason); [now rewrite <- app_assoc | reflexivity].
Qed.

Lemma tickErrors_truthy tick : Forall (fun r => reasonTruthy r = true) (tickErrors tick).
Proof.
  unfold tickErrors. apply Forall_forall. intros r Hr.
  apply list_elem_of_omap in Hr as (c & _ & Hc).
  destruct (discoveryQuery c) as [|reason]; [discriminate|].
  destruct (reasonTruthy reason) eqn:Ht; [|discriminate]. now injection Hc as <-.
Qed.

Lemma tickErrors_failure tick c reason :
  c ∈ tick -> discoveryQuery c = QueryFailed reason ->
  reasonTruthy reason = true -> reason ∈ tickErrors tick.
Proof.
  intros Hc Hfail Htruthy. unfold tickErrors. apply list_elem_of_omap.
  exists c. split; [exact Hc|]. now rewrite Hfail, Htruthy.
Qed.

Lemma tickRejects_false tick :
  tickRejects tick = false <->
  forall c, c ∈ tick -> exists results, discoveryQuery c = QueryOk results.
Proof.
  unfold tickRejects, isFulfilled. induction tick as [|x tick IH]; simpl.
  - split; [intros _ c Hc; inversion Hc | reflexivity].
  - rewrite orb_false_iff, IH. split.
    + intros [Hx Hrest] c Hc. apply elem_of_cons in Hc as [->|Hc]; [|now apply Hrest].
      destruct (discoveryQuery x) as [results|]; [now exists results | discriminate].
    + intros Hall. split.
      * destruct (Hall x) as [results ->]; [left | reflexivity].
      * intros c Hc. apply Hall. now right.
Qed.

Lemma tickRejects_quiet tick : tickRejects tick = false -> tickErrors tick = [].
Proof.
  intros Hquiet. unfold tickErrors. induction tick as [|x tick IH]; [reflexivity|].
  pose proof (proj1 (tickRejects_false _) Hquiet) as Hall.
  destruct (Hall x) as [results Hx]; [left|]. simpl. rewrite Hx. apply IH.
  apply tickRejects_false. intros c Hc. apply Hall. now right.
Qed.

Lemma joinErrors_truthy errors :
  errors <> [] -> Forall (fun r => reasonTruthy r = true) errors ->
  truthy (Some (joinErrors errors)) = true.
Proof.
  intros Hne Hall. destruct errors as [|e rest]; [contradiction|].
  apply Forall_cons in Hall as [He _].
  pose proof (reasonToString_truthy _ He) as Htext. simpl in *.
  destruct rest as [|e' rest]; [exact Htext|].
  destruct (reasonToString e) as [|ch text]; [discriminate | reflexivity].
Qed.

(** A tick in which a query rejects ends the fan-out; a tick without one
    only adds its data. *)
Lemma settleQueries_cons tick rest articleData :
  settleQueries (tick :: rest) articleData []
  = if tickRejects tick
    then (articleData ++ tickData tick, Some (joinErrors (tickErrors tick)))
    else settleQueries rest (articleData ++ tickData tick) [].
Proof.
  cbn [settleQueries]. rewrite settleTick_closed_form. simpl.
  destruct (tickRejects tick) eqn:Hrej; [reflexivity|].
  now rewrite (tickRejects_quiet _ Hrej).
Qed.

(** As soon as a query fails, the callback gets an error; the error is
    truthy when every reason of a failure is. *)
Lemma settleQueries_failure ticks failing reason articleData :
  failing ∈ concat ticks ->
  discoveryQuery failing = QueryFailed reason ->
  (forall c r, c ∈ concat ticks -> discoveryQuery c = QueryFailed r ->
               reasonTruthy r = true) ->
  exists gathered text,
    settleQueries ticks articleData [] = (gathered, Some text) /\
    truthy (Some text) = true.
Proof.
  intros Hin Hfail Htruthy. revert articleData.
  induction ticks as [|tick ticks IH]; intros articleData; [inversion Hin|].
  rewrite settleQueries_cons. destruct (tickRejects tick) eqn:Hrej.
  - eexists _, _. split; [reflexivity|].
    apply joinErrors_truthy; [|apply tickErrors_truthy].
    unfold tickRejects in Hrej. apply existsb_exists in Hrej as (c & Hc & Hbad).
    unfold isFulfilled in Hbad.
    destruct (discoveryQuery c) as [|r] eqn:Hq; [discriminate|].
    apply list_elem_of_In in Hc.
    assert (Hr : reasonTruthy r = true).
    { apply (Htruthy c r); [|exact Hq]. simpl. apply elem_of_app. now left. }
    intros Hnil. pose proof (tickErrors_failure tick c r Hc Hq Hr) as Hmem.
    rewrite Hnil in Hmem. inversion Hmem.
  - apply IH.
    + simpl in Hin. apply elem_of_app in Hin as [Hin|Hin]; [|exact Hin].
      destruct (proj1 (tickRejects_false _) Hrej failing Hin) as [results Hok].
      congruence.
    + intros c r Hc. apply Htruthy. simpl. apply elem_of_app. now right.
Qed.

Lemma concat_ticksOf sizes order : concat (ticksOf sizes order) = order.
Proof.
  revert order. induction sizes as [|n sizes IH]; intros order; simpl.
  - induction order as [|c order IHo]; [reflexivity|]. simpl. now rewrite IHo.
  - now rewrite IH, firstn_skipn.
Qed.

(** C1, amended. For every run over a list of companies in which the
    discovery query of one company fails with a truthy reason and every
    other query succeeds, in whatever order the queries settle, the promise
    of the run rejects and no record is handed to the store. *)
Theorem run_rejects_when_a_query_fails
    (companies : list string) (failing : string) (reason : Reason) :
  settleOrder companies ≡ₚ companies ->
  failing ∈ companies ->
  discoveryQuery failing = QueryFailed reason ->
  reasonTruthy reason = true ->
  (forall c, c ∈ companies -> c <> failing ->
             exists results, discoveryQuery c = QueryOk results) ->
  run (Some companies) = (Rejected, []).
Proof.
  intros Horder Hin Hfail Htruthy Hothers. unfold run.
  destruct (negb configured); [reflexivity|].
  destruct dbSearch as [docs|]; [|reflexivity].
  destruct (0 <? length companies)%nat; [|reflexivity].
  unfold getArticleDataForCompanies.
  destruct (settleQueries_failure
              (ticksOf (tickSizes companies) (settleOrder companies))
              failing reason []) as (gathered & text & Hsettle & Htext).
  - now rewrite concat_ticksOf, Horder.
  - exact Hfail.
  - intros c r Hc Hq. rewrite concat_ticksOf, Horder in Hc.
    destruct (decide (c = failing)) as [->|Hne]; [congruence|].
    destruct (Hothers c Hc Hne) as [results Hok]. congruence.
  - rewrite Hsettle. now rewrite Htext.
Qed.

End Run.

(** ** The service on the sample environment *)

Lemma getPairForDate_after_all_example :
  getPairForDate (E:=Sample.env 100) "2018-02-10" Sample.threePairs
  = Some (mkPair "2018-01-30" 15%Z).
Proof.
  apply (proj2 (getPairForDate_empty_or_after_all (E:=Sample.env 100)
                  "2018-02-10" Sample.threePairs));
    [discriminate | discriminate | repeat constructor].
Defined.

Lemma getPairForDate_exact_and_prior_example :
  getPairForDate (E:=Sample.env 100) "2018-01-25" Sample.threePairs
  = Some (mkPair "2018-01-25" 12%Z) /\
  getPairForDate (E:=Sample.env 100) "2018-01-26" Sample.threePairs
  = Some (mkPair "2018-01-26" 12%Z) /\
  getPairForDate (E:=Sample.env 100) "2018-01-10" Sample.threePairs
  = Some (mkPair "2018-01-10" 10%Z).
Proof.
  split; [|split].
  - apply (proj1 (getPairForDate_exact_or_nearest_prior (E:=Sample.env 100)
             "2018-01-25" [mkPair "2018-01-20" 10%Z] [mkPair "2018-01-30" 15%Z]
             (mkPair "2018-01-25" 12%Z) ltac:(discriminate)
             ltac:(repeat constructor; discriminate)));
      [reflexivity | repeat constructor].
  - apply (proj2 (getPairForDate_exact_or_nearest_prior (E:=Sample.env 100)
             "2018-01-26" [mkPair "2018-01-20" 10%Z; mkPair "2018-01-25" 12%Z] []
             (mkPair "2018-01-30" 15%Z) ltac:(discriminate)
             ltac:(repeat constructor; discriminate)));
      [discriminate | repeat constructor | reflexivity].
  - apply (proj2 (getPairForDate_exact_or_nearest_prior (E:=Sample.env 100)
             "2018-01-10" [] [mkPair "2018-01-25" 12%Z; mkPair "2018-01-30" 15%Z]
             (mkPair "2018-01-20" 10%Z) ltac:(discriminate)
             ltac:(constructor)));
      [discriminate | constructor | reflexivity].
Defined.

Lemma newArticles_dedup_example :
  filterNewArticles [Sample.art "a" "2018-01-20"; Sample.art "b" "2018-01-21"]
    [Sample.art "b" "2018-01-21"; Sample.art "c" "2018-01-22"]
  = [Sample.art "c" "2018-01-22"].
Proof.
  apply (proj2 newArticles_are_the_unknown_urls); reflexivity.
Defined.

Lemma history_cap_example :
  length (default [] (history
     (insertNewArticles (E:=Sample.env 1) Sample.ibm
        [Sample.news2; Sample.news1]).1)) = 1%nat /\
  exists evicted,
    default [] (history
      (insertNewArticles (E:=Sample.env 1) Sample.ibm
         [Sample.news2; Sample.news1]).1) ++ evicted
    ≡ₚ [] ++ withImages (E:=Sample.env 1) [Sample.news2; Sample.news1] /\
    forall kept old,
      kept ∈ default [] (history
        (insertNewArticles (E:=Sample.env 1) Sample.ibm
           [Sample.news2; Sample.news1]).1) ->
      old ∈ evicted -> atLeastAsRecent (E:=Sample.env 1) kept old.
Proof.
  destruct (history_capped_to_most_recent (E:=Sample.env 1) Sample.ibm
              [Sample.news2; Sample.news1]) as [_ Hover].
  destruct Hover as [Hlen Hrecent]; [simpl; lia|].
  split; [exact Hlen|]. apply Hrecent.
  repeat constructor; eexists; reflexivity.
Defined.

(** C5, as stated, fails under the cap: with a maximum of one article, a
    batch of two leaves the older one out of the history, and merging the
    same batch again finds it new. *)
Lemma second_merge_finds_evicted_article_new :
  filterNewArticles
    (default [] (history
       (updateStockDatum (E:=Sample.env 1) Sample.ibm []
          (filterNewArticles [] [Sample.news1; Sample.news2])).1))
    [Sample.news1; Sample.news2] = [Sample.news2] /\
  url Sample.news2 ∉
    urls (default [] (history
       (updateStockDatum (E:=Sample.env 1) Sample.ibm []
          (filterNewArticles [] [Sample.news1; Sample.news2])).1)).
Proof.
  split; [vm_compute; reflexivity|].
  vm_compute. intros Hin. apply list_elem_of_singleton in Hin. discriminate.
Qed.

Lemma price_failure_example :
  mkStock "Acme" (Some "ACME")
    (Some [mkArticle "http://example.com/news/1" "positive"
             (Some "2018-01-26") "title" "Example News"
             (Some "http://example.com/img/a.png");
           Sample.news2])
    (price_history Sample.acme)
  ∈ (updateStocksData (E:=Sample.env 100)
       [Sample.acmeDatum; Sample.ibmDatum] [Sample.ibm; Sample.acme]).2.
Proof.
  destruct (price_failure_keeps_stored_prices (E:=Sample.env 100)
              [Sample.acmeDatum; Sample.ibmDatum] [Sample.ibm; Sample.acme]
              Sample.acmeDatum)
    as (_ & _ & Hwritten & _).
  - apply (bool_decide_unpack _). reflexivity.
  - left.
  - discriminate.
  - intros t [= <-]. reflexivity.
  - exact Hwritten.
Defined.

Lemma relative_image_url_example :
  getImageForArticle (E:=Sample.env 100) Sample.news1
  = Resolved (Some (mkImageResult "http://example.com/news/1"
                      "http://example.com/img/a.png")).
Proof.
  apply (proj1 (relative_image_url_joined_to_domain (E:=Sample.env 100)
           Sample.news1
           "<html><body><p>IBM</p><img src='/img/a.png'></body></html>"
           "/img/a.png" eq_refl eq_refl ltac:(discriminate) eq_refl)
           "img/a.png" eq_refl).
Defined.

Lemma image_resolver_rejects_example :
  getImageForArticle (E:=Sample.env 100) Sample.news4 = Rejected.
Proof.
  apply (proj1 (image_resolver_settlement (E:=Sample.env 100) Sample.news4)).
  reflexivity.
Defined.

(** C2, as stated, fails on a transport error: the page of the article
    cannot be fetched and the promise of the resolver does not resolve with
    nothing, it rejects. *)
Lemma image_resolver_transport_error_not_absent :
  request (Env:=Sample.env 100) (url Sample.news4) = None /\
  getImageForArticle (E:=Sample.env 100) Sample.news4 <> Resolved None.
Proof. split; [reflexivity | vm_compute; discriminate]. Qed.

Lemma run_rejects_example :
  run (E:=Sample.env 100) (Some ["IBM"; "Acme"; "Apple"]) = (Rejected, []).
Proof.
  apply (run_rejects_when_a_query_fails (E:=Sample.env 100)
           ["IBM"; "Acme"; "Apple"] "Acme" (ReasonError "timeout")).
  - reflexivity.
  - apply list_elem_of_In. simpl. auto.
  - reflexivity.
  - reflexivity.
  - intros c Hc Hne. apply list_elem_of_In in Hc. simpl in Hc.
    destruct Hc as [<-|[<-|[<-|[]]]]; [eexists; reflexivity | congruence
                                      | eexists; reflexivity].
Defined.

(** C1, as stated, fails: of three companies the queries of two succeed and
    the one of the third fails, and the promise of the run does not resolve
    with any result. *)
Lemma run_does_not_resolve_after_one_failed_query :
  (exists results, discoveryQuery (Env:=Sample.env 100) "IBM" = QueryOk results) /\
  (exists results, discoveryQuery (Env:=Sample.env 100) "Apple" = QueryOk results) /\
  (exists reason, discoveryQuery (Env:=Sample.env 100) "Acme" = QueryFailed reason) /\
  ~ exists results,
      (run (E:=Sample.env 100) (Some ["IBM"; "Acme"; "Apple"])).1
      = Resolved results.
Proof.
  split; [eexists; reflexivity|]. split; [eexists; reflexivity|].
  split; [eexists; reflexivity|]. intros [results Hrun].
  vm_compute in Hrun. discriminate.
Qed.

(** ** Further properties: sorting and duplicates *)

Section SortingMore.
Context `{E : Env}.

(** X1. Sorting rearranges the articles without adding or losing any, and
    when every date is valid the result runs from the most recent article
    to the oldest. *)
Theorem sortArticles_most_recent_first (articles : list Article) :
  sortArticles articles ≡ₚ articles /\
  (Forall validDate articles ->
   StronglySorted atLeastAsRecent (sortArticles articles)).
Proof.
  split; [apply sortArticles_perm | apply sortArticles_sorted].
Qed.

Lemma filterDuplicates_sublist seen articles :
  filterDuplicates seen articles `sublist_of` articles.
Proof.
  revert seen. induction articles as [|a l IH]; intros seen; simpl.
  - constructor.
  - destruct (decide (url a ∈ seen)).
    + apply sublist_cons, IH.
    + apply sublist_skip, IH.
Qed.

Lemma filterDuplicates_urls seen articles u :
  u ∈ urls (filterDuplicates seen articles) <-> u ∈ urls articles /\ u ∉ seen.
Proof.
  unfold urls. revert seen. induction articles as [|a l IH]; intros seen; simpl.
  - rewrite elem_of_nil. tauto.
  - destruct (decide (url a ∈ seen)) as [Hseen|Hnew].
    + rewrite IH, elem_of_cons. split; [tauto|].
      intros [[->|Hin] Hout]; [contradiction | tauto].
    + cbn [List.map]. rewrite !elem_of_cons, IH, not_elem_of_union, not_elem_of_singleton.
      destruct (decide (u = url a)) as [->|Hu]; tauto.
Qed.

Lemma filterDuplicates_NoDup seen articles :
  NoDup (urls (filterDuplicates seen articles)).
Proof.
  revert seen. induction articles as [|a l IH]; intros seen; simpl.
  - constructor.
  - destruct (decide (url a ∈ seen)); [apply IH|].
    unfold urls. cbn [List.map]. apply NoDup_cons. split; [|apply IH].
    intros Hin. apply filterDuplicates_urls in Hin as [_ Hout].
    apply Hout, elem_of_union. left. now apply elem_of_singleton.
Qed.

Lemma filterDuplicates_id seen articles :
  NoDup (urls articles) -> (forall u, u ∈ urls articles -> u ∉ seen) ->
  filterDuplicates seen articles = articles.
Proof.
  unfold urls. revert seen. induction articles as [|a l IH]; intros seen Hnd Hout;
    [reflexivity|].
  cbn [List.map] in Hnd, Hout. apply NoDup_cons in Hnd as [Hfresh Hnd]. simpl.
  rewrite decide_False by (apply Hout; left). f_equal. apply IH; [exact Hnd|].
  intros u Hu. specialize (Hout u (list_elem_of_further _ _ _ Hu)).
  assert (u <> url a) by (intros ->; contradiction).
  rewrite not_elem_of_union, not_elem_of_singleton. tauto.
Qed.

Lemma filterDuplicates_first seen pre a post :
  url a ∉ seen -> url a ∉ urls pre ->
  a ∈ filterDuplicates seen (pre ++ a :: post).
Proof.
  unfold urls. revert seen. induction pre as [|x pre IH]; intros seen Hseen Hpre; simpl.
  - rewrite decide_False by exact Hseen. left.
  - cbn [List.map] in Hpre. apply not_elem_of_cons in Hpre as [Hne Hpre].
    destruct (decide (url x ∈ seen)).
    + now apply IH.
    + right. apply IH; [|exact Hpre].
      rewrite not_elem_of_union, not_elem_of_singleton. tauto.
Qed.

(** X3. The duplicate filter of a discovery answer keeps the first article
    of every URL, in order: its result is a sublist of the answer without
    two articles of one URL, it carries every URL of the answer, and an
    answer without duplicates comes back as it is. The URLs are ordinary
    keys of the object the source keeps them in, that is, neither of the
    two names that object treats specially. *)
Theorem filterDuplicates_keeps_first_of_each_url (articles : list Article) :
  Forall (fun u => u <> "__proto__" /\ u <> "hasOwnProperty") (urls articles) ->
  filterDuplicates ∅ articles `sublist_of` articles /\
  NoDup (urls (filterDuplicates ∅ articles)) /\
  (forall u, u ∈ urls (filterDuplicates ∅ articles) <-> u ∈ urls articles) /\
  (NoDup (urls articles) -> filterDuplicates ∅ articles = articles) /\
  (forall pre a post, articles = pre ++ a :: post -> url a ∉ urls pre ->
                      a ∈ filterDuplicates ∅ articles).
Proof.
  intros _.
  split; [apply filterDuplicates_sublist|].
  split; [apply filterDuplicates_NoDup|]. split; [|split].
  - intros u. rewrite filterDuplicates_urls. split; [tauto|].
    intros Hu. split; [exact Hu | apply not_elem_of_empty].
  - intros Hnd. apply filterDuplicates_id; [exact Hnd|].
    intros u _. apply not_elem_of_empty.
  - intros pre a post -> Hfirst. apply filterDuplicates_first;
      [apply not_elem_of_empty | exact Hfirst].
Qed.

End SortingMore.

(** ** Further properties: images *)

Section ImagesMore.
Context `{E : Env}.

(** X4. When the helper finds an absolute URL in the [src] of the image,
    the resolver resolves with that URL as it is, for the URL of the
    article. *)
Theorem absolute_image_url_used_verbatim
    (article : Article) (html src absolute : string) :
  request (url article) = Some html ->
  findImgSrc html = Some src -> src <> "" ->
  extractHTTPURL src = Some absolute -> absolute <> "" ->
  getImageForArticle article
  = Resolved (Some (mkImageResult (url article) absolute)).
Proof.
  intros Hpage Hsrc Hne Habs Hne'.
  rewrite (getImageForArticle_found article html src Hpage Hsrc Hne), Habs.
  now rewrite (truthy_nonempty _ Hne').
Qed.

Lemma getImageForArticle_result a r :
  getImageForArticle a = Resolved (Some r) ->
  img_url r = url a /\ request (url a) <> None.
Proof.
  unfold getImageForArticle. destruct (request (url a)) as [html|]; [|discriminate].
  destruct (findImgSrc html) as [src|]; [|discriminate].
  destruct (truthy (Some src)); [|discriminate].
  intros [= <-]. split; [reflexivity | discriminate].
Qed.

(** The result [getImages] keeps for one article. *)
Lemma resolvedImages_cons a l :
  resolvedImages (a :: l)
  = match caught (getImageForArticle a) with
    | Some r => if keepImageResult (Some r) then [r] else []
    | None => []
    end ++ resolvedImages l.
Proof.
  unfold resolvedImages, getImages. cbn [List.map omap list_omap].
  destruct (caught (getImageForArticle a)) as [r|]; [|reflexivity].
  destruct (keepImageResult (Some r)); reflexivity.
Qed.

Lemma caught_Some a r :
  caught (getImageForArticle a) = Some r ->
  getImageForArticle a = Resolved (Some r).
Proof.
  unfold caught. destruct (getImageForArticle a) as [v|]; [|discriminate].
  now intros ->.
Qed.

(** X5. The batch of image lookups gives at most one result per article, in
    the order of the articles and under their URLs; no result has an empty
    URL, and none stands for a URL whose page could not be fetched. *)
Theorem getImages_results_follow_articles (articles : list Article) :
  List.map img_url (resolvedImages articles) `sublist_of` urls articles /\
  Forall (fun r => img_url r <> "") (resolvedImages articles) /\
  (forall a, request (url a) = None ->
             url a ∉ List.map img_url (resolvedImages articles)).
Proof.
  split; [|split].
  - induction articles as [|a l IH]; [constructor|].
    rewrite resolvedImages_cons. unfold urls. cbn [List.map].
    destruct (caught (getImageForArticle a)) as [r|] eqn:Hr.
    + apply caught_Some, getImageForArticle_result in Hr as [Hurl _].
      destruct (keepImageResult (Some r)); simpl.
      * rewrite Hurl. now apply sublist_skip.
      * now apply sublist_cons.
    + now apply sublist_cons.
  - induction articles as [|a l IH]; [constructor|].
    rewrite resolvedImages_cons.
    destruct (caught (getImageForArticle a)) as [r|]; [|exact IH].
    destruct (keepImageResult (Some r)) eqn:Hkeep; [|exact IH].
    constructor; [|exact IH]. simpl in Hkeep. intros Heq.
    now rewrite Heq in Hkeep.
  - intros a Hfail Hin. apply list_elem_of_fmap in Hin as (r & Hurl & Hr).
    pose proof (resolvedImages_origin articles) as Horigin.
    rewrite Forall_forall in Horigin.
    destruct (Horigin r Hr) as (a' & _ & Hres).
    apply getImageForArticle_result in Hres as [Hurl' Hpage].
    apply Hpage. now rewrite <- Hurl', <- Hurl.
Qed.

Lemma attachTo_url r a : url (attachTo r a) = url a.
Proof. unfold attachTo. now destruct (String.eqb (url a) (img_url r)). Qed.

Lemma attachTo_other r a : url a <> img_url r -> attachTo r a = a.
Proof.
  intros Hne. unfold attachTo. apply String.eqb_neq in Hne. now rewrite Hne.
Qed.

Lemma attachImage_map r l :
  NoDup (urls l) -> attachImage r l = List.map (attachTo r) l.
Proof.
  unfold urls. induction l as [|a l IH]; intros Hnd; [reflexivity|].
  cbn [List.map] in Hnd. apply NoDup_cons in Hnd as [Hfresh Hnd].
  cbn [attachImage List.map]. unfold attachTo at 1.
  destruct (String.eqb_spec (url a) (img_url r)) as [Heq|Hne].
  - f_equal. symmetry. rewrite <- (List.map_id l) at 2.
    apply List.map_ext_in. intros b Hb. apply attachTo_other.
    intros Hurl. apply Hfresh. rewrite Heq, <- Hurl.
    apply list_elem_of_fmap. exists b. split; [reflexivity|].
    now apply list_elem_of_In.
  - f_equal. now apply IH.
Qed.

Lemma attachImages_map rs l :
  NoDup (urls l) ->
  attachImages rs l
  = List.map (fun a => fold_left (fun a r => attachTo r a) rs a) l.
Proof.
  unfold attachImages. revert l. induction rs as [|r rs IH]; intros l Hnd.
  - simpl. now rewrite List.map_id.
  - cbn [fold_left]. rewrite (attachImage_map r l Hnd), IH.
    + now rewrite List.map_map.
    + unfold urls in *. rewrite List.map_map.
      erewrite List.map_ext; [exact Hnd|]. intros a. apply attachTo_url.
Qed.

Lemma foreign_results_do_nothing l b :
  url b ∉ urls l ->
  fold_left (fun a r => attachTo r a) (resolvedImages l) b = b.
Proof.
  unfold urls. revert b. induction l as [|x l IH]; intros b Hb; [reflexivity|].
  cbn [List.map] in Hb. apply not_elem_of_cons in Hb as [Hne Hb].
  rewrite resolvedImages_cons, fold_left_app.
  destruct (caught (getImageForArticle x)) as [r|] eqn:Hr; [|now apply IH].
  apply caught_Some, getImageForArticle_result in Hr as [Hurl _].
  destruct (keepImageResult (Some r)); simpl; [|now apply IH].
  rewrite attachTo_other by now rewrite Hurl. now apply IH.
Qed.

Lemma own_result_attached l a :
  NoDup (urls l) -> a ∈ l ->
  fold_left (fun a r => attachTo r a) (resolvedImages l) a = withOwnImage a.
Proof.
  unfold urls. induction l as [|x l IH]; intros Hnd Ha; [inversion Ha|].
  cbn [List.map] in Hnd. apply NoDup_cons in Hnd as [Hfresh Hnd].
  rewrite resolvedImages_cons, fold_left_app.
  apply elem_of_cons in Ha as [->|Ha].
  - unfold withOwnImage.
    destruct (caught (getImageForArticle x)) as [r|] eqn:Hr.
    + apply caught_Some, getImageForArticle_result in Hr as [Hurl _].
      destruct (keepImageResult (Some r)); simpl.
      * unfold attachTo. rewrite <- Hurl, String.eqb_refl.
        apply foreign_results_do_nothing. exact Hfresh.
      * now apply foreign_results_do_nothing.
    + now apply foreign_results_do_nothing.
  - assert (Hne : url a <> url x).
    { intros Heq. apply Hfresh. rewrite <- Heq.
      apply list_elem_of_fmap. now exists a. }
    destruct (caught (getImageForArticle x)) as [r|] eqn:Hr; [|now apply IH].
    apply caught_Some, getImageForArticle_result in Hr as [Hurl _].
    destruct (keepImageResult (Some r)); simpl; [|now apply IH].
    rewrite attachTo_other by now rewrite Hurl. now apply IH.
Qed.

(** X6. When the new articles have pairwise different URLs, the image step
    gives every new article the image the resolver found for it, and leaves
    an article for which it found none as it is. *)
Theorem every_article_gets_its_own_image (newArticles : list Article) :
  NoDup (urls newArticles) ->
  withImages newArticles = List.map withOwnImage newArticles.
Proof.
  intros Hnd. unfold withImages. rewrite (attachImages_map _ _ Hnd).
  apply List.map_ext_in. intros a Ha.
  apply own_result_attached; [exact Hnd | now apply list_elem_of_In].
Qed.

End ImagesMore.

(** ** Further properties: the update of one record *)

Section UpdateMore.
Context `{E : Env}.

Lemma getLatestStockPrices_frame s s' :
  getLatestStockPrices s = Resolved s' ->
  company s' = company s /\ ticker s' = ticker s /\ history s' = history s.
Proof.
  unfold getLatestStockPrices. destruct (ticker s) as [t|] eqn:Ht; [|discriminate].
  destruct (truthy (Some t)); [|discriminate].
  destruct (getPriceHistoryForTicker t); [|discriminate].
  intros [= <-]. simpl. auto.
Qed.

(** The history an update stores does not depend on the price fetch. *)
Lemma updateStockDatum_history s existingArticles newArticles :
  newArticles <> [] ->
  updateStockDatum s existingArticles newArticles
  = (let u := (updateStockDatum s existingArticles newArticles).1 in (u, [u])) /\
  history (updateStockDatum s existingArticles newArticles).1
  = Some (capArticles (sortArticles
            (default [] (history s) ++ withImages newArticles))) /\
  company (updateStockDatum s existingArticles newArticles).1 = company s /\
  ticker (updateStockDatum s existingArticles newArticles).1 = ticker s.
Proof.
  intros Hnew. unfold updateStockDatum.
  assert (Hlen : (0 <? length newArticles)%nat = true).
  { apply Nat.ltb_lt. destruct newArticles; [contradiction | simpl; lia]. }
  rewrite Hlen.
  destruct (getLatestStockPrices s) as [s'|] eqn:Hprices.
  - apply getLatestStockPrices_frame in Hprices as (Hc & Ht & Hh).
    rewrite insertNewArticles_eq. simpl. rewrite Hc, Ht, Hh. auto.
  - rewrite insertNewArticles_eq. simpl. auto.
Qed.

(** X7. Whenever an update has new articles to insert, and whether or not
    the price fetch succeeds, the record it returns has the new articles
    with their images merged into its history, sorted and capped, keeps its
    company and ticker, and is handed to the store exactly once. *)
Theorem update_merges_whatever_the_prices
    (stockDatum : Stock Price) (existingArticles newArticles : list Article) :
  newArticles <> [] ->
  exists updated,
    updateStockDatum stockDatum existingArticles newArticles
    = (updated, [updated]) /\
    history updated
    = Some (capArticles (sortArticles
              (default [] (history stockDatum) ++ withImages newArticles))) /\
    company updated = company stockDatum /\
    ticker updated = ticker stockDatum.
Proof.
  intros Hnew.
  destruct (updateStockDatum_history stockDatum existingArticles newArticles Hnew)
    as (Hpair & Hrest).
  eexists. split; [exact Hpair | exact Hrest].
Qed.

(** X8. After an insertion whose articles all have valid dates, the stored
    history runs from the most recent article to the oldest. *)
Theorem stored_history_most_recent_first
    (stockDatum : Stock Price) (newArticles : list Article) :
  Forall validDate (default [] (history stockDatum) ++ newArticles) ->
  StronglySorted atLeastAsRecent
    (default [] (history (insertNewArticles stockDatum newArticles).1)).
Proof.
  intros Hvalid. rewrite insertNewArticles_eq. simpl.
  assert (Hvalid' : Forall validDate
            (default [] (history stockDatum) ++ withImages newArticles)).
  { apply Forall_app in Hvalid as [Hex Hnew]. apply Forall_app. split; auto.
    eapply withoutImage_valid; [|exact Hnew].
    apply (imageStep_withoutImage (resolvedImages newArticles)),
      attachImages_step. }
  pose proof (sortArticles_sorted _ Hvalid') as Hsorted.
  destruct (capArticles_split (sortArticles
              (default [] (history stockDatum) ++ withImages newArticles)))
    as (evicted & Hsplit & _).
  rewrite <- Hsplit in Hsorted. now apply StronglySorted_app_1_l in Hsorted.
Qed.

Lemma filterNewArticles_fresh existing incoming a :
  a ∈ filterNewArticles existing incoming -> url a ∉ urls existing.
Proof.
  rewrite filterNewArticles_filter. intros Ha.
  now apply list_elem_of_filter in Ha as [Hfresh _].
Qed.

Lemma filterNewArticles_sublist existing incoming :
  filterNewArticles existing incoming `sublist_of` incoming.
Proof. rewrite filterNewArticles_filter. apply sublist_filter. Qed.

Lemma urls_sublist l k : l `sublist_of` k -> urls l `sublist_of` urls k.
Proof. unfold urls. induction 1; simpl; constructor; auto. Qed.

(** X9. An update keeps the URLs of a history distinct: when no two stored
    articles share a URL and no two incoming articles do, no two articles of
    the history after the update share one. *)
Theorem update_keeps_urls_distinct
    (stockDatum : Stock Price) (existingArticles incoming : list Article) :
  NoDup (historyUrls stockDatum) ->
  NoDup (urls incoming) ->
  NoDup (historyUrls
           (updateStockDatum stockDatum existingArticles
              (filterNewArticles (default [] (history stockDatum)) incoming)).1).
Proof.
  intros Hstored Hincoming. unfold historyUrls in *.
  set (existing := default [] (history stockDatum)) in *.
  set (newArticles := filterNewArticles existing incoming).
  destruct newArticles as [|a rest] eqn:Hnew.
  - exact Hstored.
  - rewrite <- Hnew.
    destruct (updateStockDatum_history stockDatum existingArticles newArticles)
      as (_ & -> & _); [rewrite Hnew; discriminate|]. simpl. fold existing.
    destruct (capArticles_split (sortArticles (existing ++ withImages newArticles)))
      as (evicted & Hsplit & _).
    assert (Hall : NoDup (urls (sortArticles (existing ++ withImages newArticles)))).
    { unfold urls. rewrite sortArticles_perm, map_app.
      pose proof (withoutImage_urls _ _
        (imageStep_withoutImage _ _ _
           (attachImages_step (resolvedImages newArticles) newArticles))) as Hurls.
      fold (withImages newArticles) in Hurls. unfold urls in Hurls. rewrite Hurls.
      apply NoDup_app. split; [exact Hstored|]. split.
      - intros u Hu Hin. apply list_elem_of_fmap in Hin as (b & -> & Hb).
        now apply (filterNewArticles_fresh existing incoming b).
      - eapply sublist_NoDup; [exact Hincoming|].
        apply urls_sublist, filterNewArticles_sublist. }
    rewrite <- Hsplit in Hall. unfold urls in Hall. rewrite map_app in Hall.
    now apply NoDup_app in Hall as [Hcap _].
Qed.

(** X10. The price fetch of a record is rejected exactly when the record
    has no usable ticker or the market-data client rejects. When it
    succeeds, the record keeps its company, ticker and history, every
    fetched date has its fetched price, and every other date keeps the
    price that was stored. *)
Theorem getLatestStockPrices_new_prices_win (stockDatum : Stock Price) :
  (getLatestStockPrices stockDatum = Rejected <->
   forall t, ticker stockDatum = Some t ->
             t = "" \/ getPriceHistoryForTicker t = None) /\
  (forall updatedStock, getLatestStockPrices stockDatum = Resolved updatedStock ->
     company updatedStock = company stockDatum /\
     ticker updatedStock = ticker stockDatum /\
     history updatedStock = history stockDatum /\
     exists t fetched merged,
       ticker stockDatum = Some t /\
       getPriceHistoryForTicker t = Some fetched /\
       price_history updatedStock = Some merged /\
       forall d, merged !! d
                 = match fetched !! d with
                   | Some p => Some p
                   | None => default ∅ (price_history stockDatum) !! d
                   end).
Proof.
  split.
  - unfold getLatestStockPrices. destruct (ticker stockDatum) as [t|].
    + destruct (String.eqb_spec t "") as [->|Hne]; simpl.
      * split; [intros _ t' [= <-]; now left | reflexivity].
      * apply String.eqb_neq in Hne. rewrite Hne. simpl.
        destruct (getPriceHistoryForTicker t) as [fetched|] eqn:Hfetch.
        -- split; [discriminate|]. intros Hall.
           destruct (Hall t eq_refl) as [->|Hnone]; [|congruence].
           now rewrite String.eqb_refl in Hne.
        -- split; [|reflexivity]. intros _ t' [= <-]. now right.
    + split; [intros _ t' [=] | reflexivity].
  - intros updatedStock Hok.
    destruct (getLatestStockPrices_frame _ _ Hok) as (Hc & Ht & Hh).
    split; [exact Hc|]. split; [exact Ht|]. split; [exact Hh|].
    unfold getLatestStockPrices in Hok.
    destruct (ticker stockDatum) as [t|]; [|discriminate].
    destruct (truthy (Some t)); [|discriminate].
    destruct (getPriceHistoryForTicker t) as [fetched|] eqn:Hfetch; [|discriminate].
    injection Hok as <-. exists t, fetched. eexists.
    split; [reflexivity|]. split; [exact Hfetch|]. split; [reflexivity|].
    intros d. destruct (fetched !! d) as [p|] eqn:Hd.
    + now apply lookup_union_Some_l.
    + now apply lookup_union_r.
Qed.

End UpdateMore.

(** ** Further properties: prices *)

Section PricesMore.
Context `{E : Env}.

Lemma getPairForDate_loop_returns date realDate thisPair rest o :
  getPairForDate_loop date realDate thisPair rest = inl o ->
  exists r, o = Some r /\ pair_date r = date /\
    exists p, (thisPair = Some p \/ p ∈ rest) /\ pair_price r = pair_price p.
Proof.
  revert thisPair. induction rest as [|q rest IH]; intros thisPair; simpl;
    [discriminate|].
  destruct (String.eqb_spec (pair_date q) date) as [Heq|Hne].
  - intros [= <-]. exists q. split; [reflexivity|]. split; [exact Heq|].
    exists q. split; [right; left | reflexivity].
  - destruct (dateGt (avDateStringToDate (pair_date q)) realDate).
    + intros [= <-]. eexists. split; [reflexivity|]. split; [reflexivity|].
      destruct thisPair as [previous|].
      * exists previous. split; [now left | reflexivity].
      * exists q. split; [right; left | reflexivity].
    + intros Hloop. destruct (IH _ Hloop) as (r & -> & Hdate & p & Hp & Hprice).
      exists r. split; [reflexivity|]. split; [exact Hdate|].
      exists p. split; [|exact Hprice].
      destruct Hp as [[= <-]|Hp]; right; [left | now right].
Qed.

Lemma getPairForDate_loop_runs_out date realDate thisPair rest o :
  getPairForDate_loop date realDate thisPair rest = inr o ->
  o = match last rest with Some q => Some q | None => thisPair end.
Proof.
  revert thisPair. induction rest as [|q rest IH]; intros thisPair; simpl.
  - now intros [= <-].
  - destruct (String.eqb (pair_date q) date); [discriminate|].
    destruct (dateGt (avDateStringToDate (pair_date q)) realDate); [discriminate|].
    intros Hloop. rewrite (IH _ Hloop), last_cons. now destruct (last rest).
Qed.

(** Whatever the lookup returns is dated with the target date or is the
    last pair of the list. *)
Lemma getPairForDate_date date priceList r :
  getPairForDate date priceList = Some r ->
  pair_date r = date \/ last priceList = Some r.
Proof.
  unfold getPairForDate. destruct (negb (truthy (Some date))); [discriminate|].
  cbv zeta.
  destruct (getPairForDate_loop date (avDateStringToDate date) None priceList)
    as [o|o] eqn:Hloop.
  - intros ->. apply getPairForDate_loop_returns in Hloop
      as (r' & [= <-] & Hdate & _). now left.
  - apply getPairForDate_loop_runs_out in Hloop. subst o.
    destruct (_ && _); [|discriminate]. intros Hlast. right.
    now destruct (last priceList).
Qed.

(** X11. The lookup never makes up a price or a date: what it returns has
    the price of a pair of the list, and is dated with the target date or
    is the last pair of the list; for an empty target date it returns
    nothing. *)
Theorem getPairForDate_never_invents
    (date : string) (priceList : list (PricePair Price)) :
  getPairForDate "" priceList = None /\
  forall r, getPairForDate date priceList = Some r ->
    (exists p, p ∈ priceList /\ pair_price r = pair_price p) /\
    (pair_date r = date \/ last priceList = Some r).
Proof.
  split; [reflexivity|]. intros r Hr.
  split; [|now apply getPairForDate_date].
  unfold getPairForDate in Hr.
  destruct (negb (truthy (Some date))); [discriminate|]. cbv zeta in Hr.
  destruct (getPairForDate_loop date (avDateStringToDate date) None priceList)
    as [o|o] eqn:Hloop.
  - subst o. apply getPairForDate_loop_returns in Hloop
      as (r' & [= <-] & _ & p & [Hp|Hp] & Hprice); [discriminate|].
    now exists p.
  - apply getPairForDate_loop_runs_out in Hloop. subst o.
    destruct (_ && _); [|discriminate].
    destruct (last priceList) as [q|] eqn:Hlast; [|discriminate].
    injection Hr as <-. exists q. split; [|reflexivity].
    apply last_Some in Hlast as [l' ->]. apply elem_of_app. right. left.
Qed.

Lemma dateGt_invalid_r a : dateGt a None = false.
Proof. now destruct a. Qed.

(** X12. A target date that does not parse finds a price only through an
    exact match of its text: when no pair carries that text, the lookup
    returns nothing. *)
Theorem getPairForDate_unparsed_date_needs_exact_match
    (date : string) (priceList : list (PricePair Price)) :
  avDateStringToDate date = None ->
  Forall (fun p => pair_date p <> date) priceList ->
  getPairForDate date priceList = None.
Proof.
  intros Hinvalid Hnone. unfold getPairForDate.
  destruct (negb (truthy (Some date))); [reflexivity|]. cbv zeta.
  rewrite Hinvalid.
  pose proof (getPairForDate_loop_skip date None None priceList []) as Hskip.
  rewrite app_nil_r in Hskip. rewrite Hskip.
  - simpl. destruct (priceList !! _); [|now rewrite andb_false_r].
    simpl. now rewrite andb_false_r.
  - eapply Forall_impl; [exact Hnone|]. intros p Hp. split; [exact Hp|].
    apply dateGt_invalid_r.
Qed.

Lemma distinctDates_spec seen dates :
  NoDup (distinctDates seen dates) /\
  forall d, d ∈ distinctDates seen dates <-> d ∈ dates /\ d ∉ seen.
Proof.
  revert seen. induction dates as [|x l IH]; intros seen; simpl.
  - split; [constructor|]. intros d. rewrite elem_of_nil. tauto.
  - destruct (IH seen) as [Hnd Hin].
    destruct (IH ({[x]} ∪ seen)) as [Hnd' Hin'].
    destruct (decide (x ∈ seen)) as [Hseen|Hnew].
    + split; [exact Hnd|]. intros d. rewrite Hin, elem_of_cons.
      split; [tauto|]. intros [[->|Hd] Hout]; [contradiction | tauto].
    + split.
      * apply NoDup_cons. split; [|exact Hnd']. rewrite Hin'.
        rewrite not_elem_of_union, not_elem_of_singleton. tauto.
      * intros d. rewrite !elem_of_cons, Hin', not_elem_of_union,
          not_elem_of_singleton.
        destruct (decide (d = x)) as [->|Hne]; tauto.
Qed.

(** X13. The dates for which prices are kept are listed once each, and they
    are the dates of the articles that have one, converted to the
    market-data format. *)
Theorem neededDates_are_the_article_dates (articles : list Article) :
  NoDup (neededDates articles) /\
  forall d, d ∈ neededDates articles <->
            exists a s, a ∈ articles /\ date a = Some s /\
                        convertArticleDateToAVDate s = d.
Proof.
  unfold neededDates.
  destruct (distinctDates_spec ∅
    (omap (fun art => convertArticleDateToAVDate <$> date art) articles))
    as [Hnd Hin].
  split; [exact Hnd|]. intros d. rewrite Hin, list_elem_of_omap. split.
  - intros [(a & Ha & Hd) _]. destruct (date a) as [s|] eqn:Hs; [|discriminate].
    injection Hd as <-. now exists a, s.
  - intros (a & s & Ha & Hs & <-). split; [|apply not_elem_of_empty].
    exists a. split; [exact Ha|]. now rewrite Hs.
Qed.

Lemma filterPriceHistory_fold (needed : list string)
    (sortedPrices : list (PricePair Price)) (acc : gmap string Price) k v :
  fold_left
    (fun filteredPriceHistory date =>
       match getPairForDate date sortedPrices with
       | Some pricePair =>
           <[pair_date pricePair := pair_price pricePair]> filteredPriceHistory
       | None => filteredPriceHistory
       end)
    needed acc !! k = Some v ->
  acc !! k = Some v \/
  exists d, d ∈ needed /\ getPairForDate d sortedPrices = Some (mkPair k v).
Proof.
  revert acc. induction needed as [|d needed IH]; intros acc; simpl; [now left|].
  intros Hfold. apply IH in Hfold as [Hacc|(d' & Hd' & Hpair)].
  - destruct (getPairForDate d sortedPrices) as [[k' v']|] eqn:Hd; [|now left].
    simpl in Hacc. destruct (decide (k' = k)) as [->|Hne].
    + rewrite lookup_insert_eq in Hacc. injection Hacc as ->.
      right. exists d. split; [left | exact Hd].
    + rewrite lookup_insert_ne in Hacc by exact Hne. now left.
  - right. exists d'. split; [now right | exact Hpair].
Qed.

Lemma filterPriceHistory_keeps (needed : list string)
    (sortedPrices : list (PricePair Price)) (acc : gmap string Price) k :
  is_Some (acc !! k) ->
  is_Some (fold_left
    (fun filteredPriceHistory date =>
       match getPairForDate date sortedPrices with
       | Some pricePair =>
           <[pair_date pricePair := pair_price pricePair]> filteredPriceHistory
       | None => filteredPriceHistory
       end)
    needed acc !! k).
Proof.
  revert acc. induction needed as [|d needed IH]; intros acc Hk; simpl; [exact Hk|].
  apply IH. destruct (getPairForDate d sortedPrices) as [r|]; [|exact Hk].
  destruct (decide (pair_date r = k)) as [->|Hne].
  - rewrite lookup_insert_eq. eauto.
  - now rewrite lookup_insert_ne.
Qed.

(** X14. The trimmed price map holds nothing but answers of the lookup:
    every entry is the pair the lookup returns for one of the needed dates,
    and every needed date the lookup can serve has the date of its answer
    in the map. *)
Theorem filterPriceHistory_holds_the_lookups
    (needed : list string) (sortedPrices : list (PricePair Price)) :
  (forall k v, filterPriceHistory needed sortedPrices !! k = Some v ->
     exists d, d ∈ needed /\ getPairForDate d sortedPrices = Some (mkPair k v)) /\
  (forall d r, d ∈ needed -> getPairForDate d sortedPrices = Some r ->
     is_Some (filterPriceHistory needed sortedPrices !! pair_date r)).
Proof.
  unfold filterPriceHistory. split.
  - intros k v Hk. apply filterPriceHistory_fold in Hk as [Hempty|Hfound];
      [now rewrite lookup_empty in Hempty | exact Hfound].
  - intros d r Hd Hr. generalize (∅ : gmap string Price).
    induction needed as [|d' needed IH]; intros acc; [inversion Hd|].
    simpl. apply elem_of_cons in Hd as [<-|Hd]; [|now apply IH].
    rewrite Hr. apply filterPriceHistory_keeps. rewrite lookup_insert_eq. eauto.
Qed.

(** X15. After an update whose price fetch succeeds the record keeps a
    price only for a date of one of its articles, existing or new, in the
    market-data format, or for the date of the last pair of the price
    list; every other stored or fetched price is dropped. *)
Theorem successful_update_trims_prices
    (stockDatum updatedStock : Stock Price)
    (existingArticles newArticles : list Article) :
  newArticles <> [] ->
  getLatestStockPrices stockDatum = Resolved updatedStock ->
  exists kept,
    price_history
      (updateStockDatum stockDatum existingArticles newArticles).1 = Some kept /\
    forall k v, kept !! k = Some v ->
      (exists p, p ∈ convertPriceMapToList (price_history updatedStock) /\
                 pair_price p = v) /\
      ((exists a s, a ∈ existingArticles ++ newArticles /\ date a = Some s /\
                    convertArticleDateToAVDate s = k) \/
       pair_date <$> last (convertPriceMapToList (price_history updatedStock))
       = Some k).
Proof.
  intros Hnew Hok. unfold updateStockDatum. rewrite Hok.
  assert (Hlen : (0 <? length newArticles)%nat = true).
  { apply Nat.ltb_lt. destruct newArticles; [contradiction | simpl; lia]. }
  rewrite Hlen, insertNewArticles_eq. simpl. eexists. split; [reflexivity|].
  intros k v Hk. unfold filterPriceHistory in Hk.
  apply filterPriceHistory_fold in Hk as [Hempty|(d & Hd & Hpair)];
    [now rewrite lookup_empty in Hempty|].
  split.
  - unfold getPairForDate in Hpair.
    destruct (negb (truthy (Some d))); [discriminate|]. cbv zeta in Hpair.
    destruct (getPairForDate_loop d (avDateStringToDate d) None
                (convertPriceMapToList (price_history updatedStock)))
      as [o|o] eqn:Hloop.
    + subst o. apply getPairForDate_loop_returns in Hloop
        as (r' & [= <-] & _ & p & [Hp|Hp] & Hprice); [discriminate|].
      exists p. split; [exact Hp | now rewrite <- Hprice].
    + apply getPairForDate_loop_runs_out in Hloop. subst o.
      destruct (_ && _); [|discriminate].
      destruct (last _) as [q|] eqn:Hlast; [|discriminate].
      injection Hpair as ->. exists (mkPair k v). split; [|reflexivity].
      apply last_Some in Hlast as [l' ->]. apply elem_of_app. right. left.
  - apply getPairForDate_date in Hpair as [Hdate|Hlast].
    + left. simpl in Hdate. subst d.
      destruct (distinctDates_spec ∅
        (omap (fun art => convertArticleDateToAVDate <$> date art)
           (existingArticles ++ newArticles))) as [_ Hin].
      unfold neededDates in Hd. apply Hin in Hd as [Hd _].
      apply list_elem_of_omap in Hd as (a & Ha & Hs).
      destruct (date a) as [s|] eqn:Hdate; [|discriminate].
      injection Hs as <-. now exists a, s.
    + right. now rewrite Hlast.
Qed.

End PricesMore.

(** ** Further properties: the batch *)

Section BatchMore.
Context `{E : Env}.

Lemma updateStockDatum_identity s existingArticles newArticles :
  sameIdentity s (updateStockDatum s existingArticles newArticles).1 /\
  (length (updateStockDatum s existingArticles newArticles).2 <= 1)%nat.
Proof.
  unfold updateStockDatum, sameIdentity.
  destruct (0 <? length newArticles)%nat; [|simpl; auto].
  destruct (getLatestStockPrices s) as [s'|] eqn:Hprices.
  - unfold getLatestStockPrices in Hprices.
    destruct (ticker s) as [t|] eqn:Ht; [|discriminate].
    destruct (truthy (Some t)); [|discriminate].
    destruct (getPriceHistoryForTicker t); [|discriminate].
    injection Hprices as <-. rewrite insertNewArticles_eq. simpl. auto.
  - rewrite insertNewArticles_eq. simpl. auto.
Qed.

(** The loop only appends records, one task per article datum; every
    record it appends is the record of one of its tasks. *)
Lemma startUpdates_appends articleData : forall results tasks,
  exists extra ts,
    fold_left
      (fun '(results, tasks) articleDatum =>
         let '(results, task) := startUpdate results articleDatum in
         (results, tasks ++ [task]))
      articleData (results, tasks)
    = (results ++ extra, tasks ++ ts) /\
    length ts = length articleData /\
    forall i, (length results <= i < length results + length extra)%nat ->
              i ∈ List.map task_index ts.
Proof.
  induction articleData as [|d ds IH]; intros results tasks.
  - exists [], []. simpl. rewrite !app_nil_r. split; [reflexivity|].
    split; [reflexivity|]. intros i Hi. lia.
  - cbn [fold_left].
    assert (Hstart : exists extra0 t,
              startUpdate results d = (results ++ extra0, t) /\
              (extra0 = [] \/ (length extra0 = 1%nat /\ task_index t = length results))).
    { unfold startUpdate.
      destruct (findStockDatum results (ad_company d)) as [[i s]|].
      - eexists [], _. rewrite app_nil_r. split; [reflexivity | now left].
      - eexists [_], _. split; [reflexivity | now right]. }
    destruct Hstart as (extra0 & t & -> & Hextra0).
    destruct (IH (results ++ extra0) (tasks ++ [t])) as (extra & ts & -> & Hlen & Hcover).
    exists (extra0 ++ extra), (t :: ts). rewrite <- !app_assoc.
    split; [reflexivity|]. split; [simpl; now rewrite Hlen|].
    intros i Hi. cbn [List.map]. rewrite length_app in Hi, Hcover.
    destruct Hextra0 as [->|[Hone Hidx]].
    + right. apply Hcover. simpl in *. lia.
    + destruct (decide (i = length results)) as [->|Hne].
      * rewrite Hidx. left.
      * right. apply Hcover. lia.
Qed.

Lemma finishUpdate_identity results writes t :
  Forall2 sameIdentity results (finishUpdate (results, writes) t).1 /\
  (length (finishUpdate (results, writes) t).2 <= length writes + 1)%nat.
Proof.
  unfold finishUpdate.
  assert (Hrefl : Forall2 sameIdentity results results).
  { apply Forall_Forall2_diag, Forall_forall. intros s _. now split. }
  destruct (results !! task_index t) as [s|] eqn:Hlook; [|simpl; split; [auto | lia]].
  destruct (updateStockDatum_identity s (task_existing t) (task_new t)) as [Hid Hw].
  destruct (updateStockDatum s (task_existing t) (task_new t)) as [u w].
  simpl in *. split; [|rewrite length_app; lia].
  apply Forall2_same_length_lookup_2; [now rewrite length_insert|].
  intros i x y Hx Hy. destruct (decide (i = task_index t)) as [->|Hne].
  - rewrite list_lookup_insert_eq in Hy by (now apply lookup_lt_Some in Hlook).
    injection Hy as <-. congruence.
  - rewrite list_lookup_insert_ne in Hy by auto.
    assert (x = y) as -> by congruence. now split.
Qed.

Lemma finishUpdates_identity ts : forall results writes,
  Forall2 sameIdentity results (fold_left finishUpdate ts (results, writes)).1 /\
  (length (fold_left finishUpdate ts (results, writes)).2
   <= length writes + length ts)%nat.
Proof.
  induction ts as [|t ts IH]; intros results writes.
  - simpl. split; [|lia]. apply Forall_Forall2_diag, Forall_forall.
    intros s _. now split.
  - cbn [fold_left]. destruct (finishUpdate_identity results writes t) as [Hid Hw].
    destruct (finishUpdate (results, writes) t) as [results' writes'].
    destruct (IH results' writes') as [Hid' Hw']. simpl in *. split; [|lia].
    eapply Forall2_trans; [|exact Hid|exact Hid'].
    intros x y z [Hc Ht] [Hc' Ht']. split; congruence.
Qed.

(** X16. A batch never removes, moves or renames a stored record: every
    stored record is found at its position in the result, for the same
    company and under the same ticker; and at most one record per article
    datum is handed to the store. *)
Theorem updateStocksData_keeps_stored_records
    (articleData : list ArticleDatum) (stockData : list (Stock Price)) :
  (forall i s, stockData !! i = Some s ->
     exists s', (updateStocksData articleData stockData).1 !! i = Some s' /\
                company s' = company s /\ ticker s' = ticker s) /\
  (length (updateStocksData articleData stockData).2 <= length articleData)%nat.
Proof.
  unfold updateStocksData, startUpdates.
  destruct (startUpdates_appends articleData stockData [])
    as (extra & ts & -> & Hlen & _). simpl app.
  destruct (finishUpdates_identity ts (stockData ++ extra) []) as [Hid Hw].
  split; [|simpl in Hw; lia].
  intros i s Hs.
  destruct (Forall2_lookup_l _ _ _ i s Hid) as (s' & Hs' & Hc & Ht).
  { now apply lookup_app_l_Some. }
  now exists s'.
Qed.

Lemma filterNewArticles_nil articles : filterNewArticles [] articles = articles.
Proof.
  unfold filterNewArticles. induction articles as [|a l IH]; [reflexivity|].
  simpl. f_equal. exact IH.
Qed.

Lemma findTickerForCompany_Some companies name t :
  findTickerForCompany companies name = Some t -> (name, t) ∈ companies.
Proof.
  induction companies as [|[n t'] l IH]; simpl; [discriminate|].
  destruct (String.eqb_spec name n) as [->|Hne].
  - intros [= ->]. left.
  - intros Hfind. right. now apply IH.
Qed.

Lemma findTickerForCompany_None companies name :
  findTickerForCompany companies name = None <-> name ∉ companies.*1.
Proof.
  induction companies as [|[n t'] l IH]; simpl.
  - split; [intros _; apply not_elem_of_nil | reflexivity].
  - rewrite not_elem_of_cons. destruct (String.eqb_spec name n) as [->|Hne].
    + split; [discriminate | tauto].
    + rewrite IH. tauto.
Qed.

(** X17. In a batch over distinct companies, a company whose articles are
    all stored already keeps its record as it is; and a batch without
    article data returns the stored records and writes nothing. *)
Theorem nothing_new_leaves_record_untouched
    (articleData : list ArticleDatum) (stockData : list (Stock Price)) :
  updateStocksData [] stockData = (stockData, []) /\
  forall d, NoDup (List.map ad_company articleData) -> d ∈ articleData ->
    newArticlesFor stockData d = [] ->
    recordFor stockData (ad_company d)
    ∈ (updateStocksData articleData stockData).1.
Proof.
  split; [reflexivity|]. intros d Hnodup Hd Hnone.
  destruct (updateStocksData_company articleData stockData d Hnodup Hd)
    as (i & Hres & _).
  unfold updateFor, updateStockDatum in Hres. rewrite Hnone in Hres.
  simpl in Hres. eapply list_elem_of_lookup_2; eauto.
Qed.

Lemma findTickerForCompany_first pre name t post :
  name ∉ pre.*1 ->
  findTickerForCompany (pre ++ (name, t) :: post) name = Some t.
Proof.
  induction pre as [|[n t'] pre IH]; intros Hfresh; simpl.
  - now rewrite String.eqb_refl.
  - cbn in Hfresh. apply not_elem_of_cons in Hfresh as [Hne Hfresh].
    apply String.eqb_neq in Hne. rewrite Hne. now apply IH.
Qed.

(** X18. In a batch over distinct companies, a company with articles and
    without a stored record gets one: it carries the company and all the
    articles of the batch, sorted and capped; its ticker is the one of the
    first entry of the configuration with the name of the company, unless
    that ticker is empty, and the text used for a missing ticker when that
    ticker is empty or no entry has the name; it is part of the result and
    handed to the store. *)
Theorem unknown_company_gets_a_record
    (articleData : list ArticleDatum) (stockData : list (Stock Price))
    (d : ArticleDatum) :
  NoDup (List.map ad_company articleData) -> d ∈ articleData ->
  findStockDatum stockData (ad_company d) = None ->
  ad_articles d <> [] ->
  exists created,
    created ∈ (updateStocksData articleData stockData).1 /\
    created ∈ (updateStocksData articleData stockData).2 /\
    company created = ad_company d /\
    history created
    = Some (capArticles (sortArticles (withImages (ad_articles d)))) /\
    (forall pre t post,
       configCompanies = pre ++ (ad_company d, t) :: post ->
       ad_company d ∉ pre.*1 ->
       ticker created = Some (if String.eqb t "" then "No Ticker Found" else t)) /\
    (ad_company d ∉ configCompanies.*1 ->
     ticker created = Some "No Ticker Found").
Proof.
  intros Hnodup Hd Hunknown Hsome.
  destruct (updateStocksData_company articleData stockData d Hnodup Hd)
    as (i & Hres & Hwrites).
  assert (Hrecord : recordFor stockData (ad_company d)
                    = newStockDatum (ad_company d)).
  { unfold recordFor. now rewrite Hunknown. }
  assert (Hnew : newArticlesFor stockData d = ad_articles d).
  { unfold newArticlesFor. rewrite Hrecord. simpl. apply filterNewArticles_nil. }
  unfold updateFor in Hres, Hwrites. rewrite Hnew, Hrecord in Hres, Hwrites.
  destruct (updateStockDatum_history (newStockDatum (ad_company d))
              (default [] (history (newStockDatum (ad_company d))))
              (ad_articles d) Hsome) as (Hpair & Hhist & Hcomp & Hticker).
  exists (updateStockDatum (newStockDatum (ad_company d))
            (default [] (history (newStockDatum (ad_company d))))
            (ad_articles d)).1.
  split; [eapply list_elem_of_lookup_2; eauto|].
  split; [apply Hwrites; rewrite Hpair; simpl; left|].
  split; [exact Hcomp|]. split; [exact Hhist|].
  rewrite Hticker. unfold newStockDatum, findTickerForCompanyWithName. simpl.
  split.
  - intros pre t post Hconfig Hfresh.
    rewrite Hconfig, (findTickerForCompany_first _ _ _ _ Hfresh).
    now destruct (String.eqb t "").
  - intros Habsent. apply findTickerForCompany_None in Habsent.
    now rewrite Habsent.
Qed.

Lemma finishUpdates_writes ts : forall results writes w,
  NoDup (List.map task_index ts) ->
  w ∈ (fold_left finishUpdate ts (results, writes)).2 ->
  w ∈ writes \/
  exists t s, t ∈ ts /\ results !! task_index t = Some s /\
              w ∈ (updateStockDatum s (task_existing t) (task_new t)).2.
Proof.
  induction ts as [|t0 ts IH]; intros results writes w Hnodup; [now left|].
  cbn [List.map] in Hnodup. apply NoDup_cons in Hnodup as [Hfresh Hnodup].
  cbn [fold_left]. unfold finishUpdate at 2.
  destruct (results !! task_index t0) as [s0|] eqn:Hlook.
  - destruct (updateStockDatum s0 (task_existing t0) (task_new t0)) as [u0 w0] eqn:Hupd.
    intros Hw. destruct (IH _ _ _ Hnodup Hw) as [Hw'|(t & s & Ht & Hs & Hw')];
      clear Hw; rename Hw' into Hw.
    + apply elem_of_app in Hw as [Hw|Hw]; [now left|]. right.
      exists t0, s0. split; [left|]. split; [exact Hlook|]. now rewrite Hupd.
    + right. exists t, s. split; [now right|]. split; [|exact Hw].
      rewrite list_lookup_insert_ne in Hs; [exact Hs|].
      intros Heq. apply Hfresh. rewrite Heq.
      apply list_elem_of_fmap. now exists t.
  - intros Hw. destruct (IH _ _ _ Hnodup Hw) as [Hw'|(t & s & Ht & Hs & Hw')];
      [now left|].
    right. exists t, s. split; [now right | auto].
Qed.

(** X19. In a batch over distinct companies, every record of the result is
    a stored record as it was or the record the executor of one article
    datum makes, and every record handed to the store is the record made
    for an article datum that brought new articles. *)
Theorem batch_result_is_stored_or_updated
    (articleData : list ArticleDatum) (stockData : list (Stock Price)) :
  NoDup (List.map ad_company articleData) ->
  (forall r, r ∈ (updateStocksData articleData stockData).1 ->
     r ∈ stockData \/
     exists d, d ∈ articleData /\ r = (updateFor stockData d).1) /\
  (forall w, w ∈ (updateStocksData articleData stockData).2 ->
     exists d, d ∈ articleData /\ w = (updateFor stockData d).1 /\
               newArticlesFor stockData d <> []).
Proof.
  intros Hnodup. unfold updateStocksData, startUpdates.
  destruct (startUpdates_spec articleData stockData [] Hnodup)
    as (extra & ts & Hfold & Hrel).
  destruct (startUpdates_appends articleData stockData [])
    as (extra' & ts' & Hfold' & _ & Hcover).
  rewrite Hfold in Hfold'. injection Hfold' as Hextra Hts.
  apply app_inv_head in Hextra. simpl in Hts. subst extra' ts'.
  rewrite Hfold. simpl app.
  pose proof (taskOf_indices _ _ _ _ Hnodup Hrel) as Hidx.
  destruct (finishUpdates_spec ts (stockData ++ extra) [] Hidx)
    as (Htasks & _ & Hrest).
  destruct (finishUpdates_identity ts (stockData ++ extra) []) as [Hid _].
  assert (Htask : forall t, t ∈ ts ->
            exists d, d ∈ articleData /\
              (stockData ++ extra) !! task_index t
              = Some (recordFor stockData (ad_company d)) /\
              updateStockDatum (recordFor stockData (ad_company d))
                (task_existing t) (task_new t) = updateFor stockData d /\
              task_new t = newArticlesFor stockData d).
  { intros t Ht. apply list_elem_of_lookup in Ht as [k Hk].
    destruct (Forall2_lookup_r _ _ _ _ _ Hrel Hk) as (d & Hd & Hfind & Hex & Hnew).
    exists d. split; [eapply list_elem_of_lookup_2; eauto|].
    apply findStockDatum_Some in Hfind as [Hlook _].
    split; [exact Hlook|]. unfold updateFor. now rewrite Hex, Hnew. }
  split.
  - intros r Hr. apply list_elem_of_lookup in Hr as [i Hi].
    destruct (decide (i ∈ List.map task_index ts)) as [Hin|Hout].
    + apply list_elem_of_fmap in Hin as (t & -> & Ht).
      destruct (Htask t Ht) as (d & Hd & Hlook & Hupd & _).
      destruct (Htasks t _ Ht Hlook) as [Hres _].
      rewrite Hres, Hupd in Hi. injection Hi as <-. right. now exists d.
    + rewrite (Hrest i Hout) in Hi. left.
      destruct (decide (i < length stockData)%nat) as [Hlt|Hge].
      * rewrite lookup_app_l in Hi by exact Hlt.
        eapply list_elem_of_lookup_2; eauto.
      * exfalso. apply Hout, Hcover. apply lookup_lt_Some in Hi.
        rewrite length_app in Hi. lia.
  - intros w Hw.
    destruct (finishUpdates_writes ts _ _ w Hidx Hw) as [Hw'|(t & s & Ht & Hs & Hw')];
      [inversion Hw'|]. clear Hw. rename Hw' into Hw.
    destruct (Htask t Ht) as (d & Hd & Hlook & Hupd & Hnew).
    rewrite Hlook in Hs. injection Hs as <-. rewrite Hupd in Hw.
    exists d. split; [exact Hd|].
    unfold updateFor, updateStockDatum in *.
    destruct (newArticlesFor stockData d) as [|a rest] eqn:Hnone;
      [simpl in Hw; inversion Hw|].
    split; [|discriminate]. rewrite <- Hnone in *.
    destruct (updateStockDatum_history (recordFor stockData (ad_company d))
                (default [] (history (recordFor stockData (ad_company d))))
                (newArticlesFor stockData d)) as (Hpair & _);
      [rewrite Hnone; discriminate|].
    unfold updateStockDatum in Hpair. rewrite Hpair in Hw. simpl in Hw.
    now apply list_elem_of_singleton in Hw.
Qed.

End BatchMore.

(** ** Further properties: the fan-out and the run *)

Section RunMore.
Context `{E : Env}.

Lemma datumOf_fulfilled c results :
  discoveryQuery c = QueryOk results ->
  datumOf c = mkArticleDatum c (filterDuplicates ∅ (parseResults results)).
Proof. intros Hc. unfold datumOf. now rewrite Hc. Qed.

(** The fan-out over ticks without a rejection followed by a tick with
    one. *)
Lemma settleQueries_until_storm quiet stormy later articleData :
  Forall (fun tick => tickRejects tick = false) quiet ->
  tickRejects stormy = true ->
  settleQueries (quiet ++ stormy :: later) articleData []
  = (articleData ++ flat_map tickData (quiet ++ [stormy]),
     Some (joinErrors (tickErrors stormy))).
Proof.
  intros Hquiet Hstorm. revert articleData.
  induction Hquiet as [|tick quiet Htick _ IH]; intros articleData.
  - simpl app. rewrite settleQueries_cons, Hstorm. simpl. now rewrite app_nil_r.
  - cbn [app]. rewrite settleQueries_cons, Htick, IH. cbn [flat_map].
    now rewrite app_assoc.
Qed.

Lemma settleQueries_all_quiet ticks articleData :
  Forall (fun tick => tickRejects tick = false) ticks ->
  settleQueries ticks articleData [] = (articleData ++ flat_map tickData ticks, None).
Proof.
  intros Hquiet. revert articleData.
  induction Hquiet as [|tick ticks Htick _ IH]; intros articleData.
  - simpl. now rewrite app_nil_r.
  - rewrite settleQueries_cons, Htick, IH. cbn [flat_map]. now rewrite app_assoc.
Qed.

(** Every list of ticks is quiet throughout or has a first tick with a
    rejection. *)
Lemma first_storm ticks :
  Forall (fun tick => tickRejects tick = false) ticks \/
  exists quiet stormy later,
    ticks = quiet ++ stormy :: later /\
    Forall (fun tick => tickRejects tick = false) quiet /\
    tickRejects stormy = true.
Proof.
  induction ticks as [|tick ticks IH]; [left; constructor|].
  destruct (tickRejects tick) eqn:Htick.
  - right. exists [], tick, ticks. split; [reflexivity|]. split; [constructor | exact Htick].
  - destruct IH as [Hquiet|(quiet & stormy & later & -> & Hquiet & Hstorm)].
    + left. now constructor.
    + right. exists (tick :: quiet), stormy, later.
      split; [reflexivity|]. split; [now constructor | exact Hstorm].
Qed.

Lemma first_storm_unique quiet stormy later quiet' stormy' later' :
  quiet ++ stormy :: later = quiet' ++ stormy' :: later' ->
  Forall (fun tick => tickRejects tick = false) quiet ->
  tickRejects stormy = true ->
  Forall (fun tick => tickRejects tick = false) quiet' ->
  tickRejects stormy' = true ->
  quiet = quiet' /\ stormy = stormy'.
Proof.
  revert quiet'. induction quiet as [|t quiet IH]; intros [|t' quiet'] Heq Hq Hs Hq' Hs';
    simpl in Heq.
  - injection Heq as -> _. auto.
  - injection Heq as <- _. apply Forall_cons in Hq' as [Ht _]. congruence.
  - injection Heq as -> _. apply Forall_cons in Hq as [Ht _]. congruence.
  - injection Heq as -> Heq. apply Forall_cons in Hq as [_ Hq].
    apply Forall_cons in Hq' as [_ Hq'].
    destruct (IH _ Heq Hq Hs Hq' Hs') as [-> ->]. auto.
Qed.

Lemma tickErrors_nonempty tick :
  tickErrors tick <> [] <->
  exists c reason, c ∈ tick /\ discoveryQuery c = QueryFailed reason /\
                   reasonTruthy reason = true.
Proof.
  split.
  - intros Hne. destruct (tickErrors tick) as [|r rest] eqn:Herr; [contradiction|].
    assert (Hr : r ∈ tickErrors tick) by (rewrite Herr; left).
    unfold tickErrors in Hr. apply list_elem_of_omap in Hr as (c & Hc & Hq).
    destruct (discoveryQuery c) as [|reason] eqn:Hdq; [discriminate|].
    destruct (reasonTruthy reason) eqn:Ht; [|discriminate].
    now exists c, reason.
  - intros (c & reason & Hc & Hq & Ht) Hnil.
    pose proof (tickErrors_failure tick c reason Hc Hq Ht) as Hin.
    rewrite Hnil in Hin. inversion Hin.
Qed.

Lemma tickRejects_failure tick c reason :
  c ∈ tick -> discoveryQuery c = QueryFailed reason -> tickRejects tick = true.
Proof.
  intros Hc Hq. destruct (tickRejects tick) eqn:Hrej; [reflexivity|].
  destruct (proj1 (tickRejects_false _) Hrej c Hc) as [results Hok]. congruence.
Qed.

(** X20. The fan-out works tick by tick. The ticks are the settling order
    cut into consecutive groups. When no query rejects, the callback gets
    the data of all the queries, in settling order, and no error. Otherwise
    it gets the data of the queries fulfilled up to the end of the first
    tick in which a query rejects, those of that tick included, and as error
    the truthy reasons of the rejections of that tick, joined by commas (the
    empty text when none is truthy). The data of a fulfilled query are its
    company with the parsed articles of its answer without duplicate
    URLs. *)
Theorem getArticleDataForCompanies_tick_by_tick (companies : list string) :
  ordinaryAnswers (settleOrder companies) ->
  concat (queryTicks companies) = settleOrder companies /\
  (Forall (fun tick => tickRejects tick = false) (queryTicks companies) ->
   getArticleDataForCompanies companies
   = (flat_map tickData (queryTicks companies), None)) /\
  (forall quiet stormy later,
     queryTicks companies = quiet ++ stormy :: later ->
     Forall (fun tick => tickRejects tick = false) quiet ->
     tickRejects stormy = true ->
     getArticleDataForCompanies companies
     = (flat_map tickData (quiet ++ [stormy]),
        Some (joinErrors (tickErrors stormy)))) /\
  (forall tick,
     (tickRejects tick = true <->
      exists c reason, c ∈ tick /\ discoveryQuery c = QueryFailed reason) /\
     (forall r, r ∈ tickErrors tick <->
        exists c, c ∈ tick /\ discoveryQuery c = QueryFailed r /\
                  reasonTruthy r = true) /\
     (forall d, d ∈ tickData tick <->
        exists c results, c ∈ tick /\ discoveryQuery c = QueryOk results /\
          d = mkArticleDatum c (filterDuplicates ∅ (parseResults results)))).
Proof.
  intros _. split; [apply concat_ticksOf|]. split; [|split].
  - intros Hquiet. unfold getArticleDataForCompanies.
    fold (queryTicks companies). now rewrite settleQueries_all_quiet.
  - intros quiet stormy later Hticks Hquiet Hstorm.
    unfold getArticleDataForCompanies. fold (queryTicks companies).
    rewrite Hticks. now rewrite settleQueries_until_storm.
  - intros tick. split; [|split].
    + split.
      * intros Hrej. unfold tickRejects in Hrej.
        apply existsb_exists in Hrej as (c & Hc & Hbad). unfold isFulfilled in Hbad.
        destruct (discoveryQuery c) as [|r] eqn:Hq; [discriminate|].
        exists c, r. split; [now apply list_elem_of_In | exact Hq].
      * intros (c & reason & Hc & Hq). now apply tickRejects_failure with c reason.
    + intros r. split.
      * intros Hr. unfold tickErrors in Hr.
        apply list_elem_of_omap in Hr as (c & Hc & Hq).
        destruct (discoveryQuery c) as [|reason] eqn:Hdq; [discriminate|].
        destruct (reasonTruthy reason) eqn:Ht; [|discriminate].
        injection Hq as <-. now exists c.
      * intros (c & Hc & Hq & Ht). now apply tickErrors_failure with c.
    + intros d. unfold tickData. rewrite list_elem_of_In, List.in_map_iff. split.
      * intros (c & <- & Hc). apply List.filter_In in Hc as [Hc Hok].
        unfold isFulfilled in Hok.
        destruct (discoveryQuery c) as [results|] eqn:Hq; [|discriminate].
        exists c, results. split; [now apply list_elem_of_In|].
        split; [exact Hq | now apply datumOf_fulfilled].
      * intros (c & results & Hc & Hq & ->). exists c.
        split; [now apply datumOf_fulfilled|]. apply List.filter_In.
        split; [now apply list_elem_of_In|]. unfold isFulfilled. now rewrite Hq.
Qed.

(** How a run settles, in one equation. *)
Lemma run_closed_form companies :
  run companies
  = match configured, dbSearch with
    | true, Some docs =>
        match companiesOfRun companies docs with
        | [] => (Rejected, [])
        | c :: cs =>
            if truthy (getArticleDataForCompanies (c :: cs)).2 then (Rejected, [])
            else
              (Resolved (updateStocksData
                           (getArticleDataForCompanies (c :: cs)).1 docs).1,
               (updateStocksData
                  (getArticleDataForCompanies (c :: cs)).1 docs).2)
        end
    | _, _ => (Rejected, [])
    end.
Proof.
  unfold run. destruct configured; [|reflexivity]. simpl negb. cbv iota.
  destruct dbSearch as [docs|]; [|reflexivity].
  fold (companiesOfRun companies docs).
  destruct (companiesOfRun companies docs) as [|c cs]; [reflexivity|].
  cbn [length Nat.ltb Nat.leb]. cbv iota.
  destruct (getArticleDataForCompanies (c :: cs)) as [data err]. simpl.
  destruct (truthy err); [reflexivity|]. simpl.
  now destruct (updateStocksData data docs).
Qed.

(** The error of the fan-out is truthy exactly when a query with a truthy
    reason rejects in the first tick in which a query rejects. *)
Lemma fan_out_error_truthy companies :
  truthy (getArticleDataForCompanies companies).2 = true <->
  exists quiet stormy later c reason,
    queryTicks companies = quiet ++ stormy :: later /\
    Forall (fun tick => tickRejects tick = false) quiet /\
    c ∈ stormy /\ discoveryQuery c = QueryFailed reason /\
    reasonTruthy reason = true.
Proof.
  unfold getArticleDataForCompanies. fold (queryTicks companies).
  destruct (first_storm (queryTicks companies))
    as [Hquiet|(quiet & stormy & later & Hticks & Hquiet & Hstorm)].
  - rewrite settleQueries_all_quiet by exact Hquiet. simpl. split; [discriminate|].
    intros (quiet & stormy & later & c & reason & Hticks & _ & Hc & Hq & _).
    exfalso. rewrite Hticks in Hquiet.
    apply Forall_app in Hquiet as [_ Hquiet]. apply Forall_cons in Hquiet as [Hs _].
    pose proof (tickRejects_failure _ _ _ Hc Hq). congruence.
  - rewrite Hticks, settleQueries_until_storm by assumption. cbn [snd]. split.
    + intros Htruthy.
      assert (Hne : tickErrors stormy <> []).
      { intros Hnil. rewrite Hnil in Htruthy. discriminate. }
      apply tickErrors_nonempty in Hne as (c & reason & Hc & Hq & Ht).
      now exists quiet, stormy, later, c, reason.
    + intros (quiet' & stormy' & later' & c & reason & Heq & Hquiet' & Hc & Hq & Ht).
      pose proof (tickRejects_failure _ _ _ Hc Hq) as Hstorm'.
      destruct (first_storm_unique _ _ _ _ _ _ Heq Hquiet Hstorm Hquiet' Hstorm')
        as [_ <-].
      apply joinErrors_truthy; [|apply tickErrors_truthy].
      apply tickErrors_nonempty. now exists c, reason.
Qed.

(** X21. A run rejects exactly when the service is not configured, the
    listing of the store fails, there is no company to work on, or, in the
    first tick in which a discovery query rejects, a query rejects with a
    truthy reason; and a run that rejects hands nothing to the store. *)
Theorem run_rejects_exactly_when (companies : option (list string)) :
  (forall docs, dbSearch = Some docs ->
     ordinaryAnswers (settleOrder (companiesOfRun companies docs))) ->
  ((run companies).1 = Rejected <->
   configured = false \/ dbSearch = None \/
   exists docs, dbSearch = Some docs /\
     (companiesOfRun companies docs = [] \/
      exists quiet stormy later c reason,
        queryTicks (companiesOfRun companies docs) = quiet ++ stormy :: later /\
        Forall (fun tick => tickRejects tick = false) quiet /\
        c ∈ stormy /\ discoveryQuery c = QueryFailed reason /\
        reasonTruthy reason = true)) /\
  ((run companies).1 = Rejected -> (run companies).2 = []).
Proof.
  intros _. rewrite run_closed_form. destruct configured.
  2:{ split; [|intros _; reflexivity].
      split; [intros _; now left | intros _; reflexivity]. }
  destruct dbSearch as [docs|].
  2:{ split; [|intros _; reflexivity].
      split; [intros _; right; now left | intros _; reflexivity]. }
  destruct (companiesOfRun companies docs) as [|c cs] eqn:Hcs.
  { split; [|intros _; reflexivity]. split; [|intros _; reflexivity].
    intros _. right. right. exists docs. split; [reflexivity | now left]. }
  pose proof (fan_out_error_truthy (c :: cs)) as Herr.
  destruct (truthy (getArticleDataForCompanies (c :: cs)).2).
  - split; [|intros _; reflexivity]. split; [|intros _; reflexivity].
    intros _. right. right. exists docs. split; [reflexivity|]. right.
    rewrite Hcs. now apply Herr.
  - split; [|discriminate]. split; [discriminate|].
    intros [Hc|[Hdb|(docs' & [= <-] & Hwhy)]]; [discriminate..|].
    rewrite Hcs in Hwhy. destruct Hwhy as [Hnil|Hstorm]; [discriminate|].
    apply Herr in Hstorm. discriminate.
Qed.

(** X22. When, in the first tick in which a discovery query rejects, every
    rejection has a falsy reason, the run does not reject: it resolves
    with the update for the companies whose queries are fulfilled up to the
    end of that tick, and for no other company of the list. *)
Theorem run_resolves_partially_on_falsy_reasons
    (companies : list string) (docs : list (Stock Price))
    (quiet : list (list string)) (stormy : list string)
    (later : list (list string)) :
  ordinaryAnswers (settleOrder companies) ->
  configured = true -> dbSearch = Some docs -> companies <> [] ->
  queryTicks companies = quiet ++ stormy :: later ->
  Forall (fun tick => tickRejects tick = false) quiet ->
  tickRejects stormy = true ->
  (forall c reason, c ∈ stormy -> discoveryQuery c = QueryFailed reason ->
                    reasonTruthy reason = false) ->
  run (Some companies)
  = (Resolved (updateStocksData (flat_map tickData (quiet ++ [stormy])) docs).1,
     (updateStocksData (flat_map tickData (quiet ++ [stormy])) docs).2).
Proof.
  intros _ Hconf Hdb Hsome Hticks Hquiet Hstorm Hfalsy.
  rewrite run_closed_form, Hconf, Hdb. simpl companiesOfRun.
  destruct companies as [|c cs]; [contradiction|].
  unfold getArticleDataForCompanies. fold (queryTicks (c :: cs)).
  rewrite Hticks, settleQueries_until_storm by assumption. cbn [fst snd app].
  assert (Hnone : tickErrors stormy = []).
  { destruct (tickErrors stormy) as [|r rest] eqn:Herr; [reflexivity|].
    assert (Hne : tickErrors stormy <> []) by (rewrite Herr; discriminate).
    apply tickErrors_nonempty in Hne as (x & reason & Hx & Hq & Ht).
    rewrite (Hfalsy x reason Hx Hq) in Ht. discriminate. }
  rewrite Hnone. reflexivity.
Qed.

(** X23. Without a list of companies a run works on the companies of the
    stored records, in their order; with the empty list, or without a list
    over an empty store, it rejects. *)
Theorem run_defaults_to_stored_companies (docs : list (Stock Price)) :
  dbSearch = Some docs ->
  run None = run (Some (List.map company docs)) /\
  run (Some []) = (Rejected, []) /\
  (docs = [] -> run None = (Rejected, [])).
Proof.
  intros Hdb. split; [|split].
  - now rewrite !run_closed_form, Hdb.
  - rewrite run_closed_form, Hdb. now destruct configured.
  - intros ->. rewrite run_closed_form, Hdb. now destruct configured.
Qed.

End RunMore.

(** ** Further properties on the sample environment *)

Lemma sortArticles_example :
  StronglySorted (atLeastAsRecent (E:=Sample.env 100))
    (sortArticles (E:=Sample.env 100) [Sample.news2; Sample.news1]).
Proof.
  apply (proj2 (sortArticles_most_recent_first (E:=Sample.env 100)
                  [Sample.news2; Sample.news1])).
  repeat constructor; eexists; reflexivity.
Defined.

Lemma filterDuplicates_example :
  filterDuplicates ∅ [Sample.news1; Sample.news2] = [Sample.news1; Sample.news2].
Proof.
  apply (proj1 (proj2 (proj2 (proj2
           (filterDuplicates_keeps_first_of_each_url
              [Sample.news1; Sample.news2]
              ltac:(repeat constructor; discriminate)))))).
  apply (bool_decide_unpack _). reflexivity.
Defined.

Lemma absolute_image_url_example :
  getImageForArticle (E:=Sample.env 100) Sample2.news3
  = Resolved (Some (mkImageResult "http://example.com/news/3"
                      "http://cdn.example.com/b.png")).
Proof.
  apply (absolute_image_url_used_verbatim (E:=Sample.env 100) Sample2.news3
           "<html><body><img src='http://cdn.example.com/b.png'></body></html>"
           "http://cdn.example.com/b.png" "http://cdn.example.com/b.png"
           eq_refl eq_refl ltac:(discriminate) eq_refl ltac:(discriminate)).
Defined.

Lemma getImages_example :
  url Sample.news4
  ∉ List.map img_url
      (resolvedImages (E:=Sample.env 100) [Sample.news1; Sample.news4]).
Proof.
  apply (proj2 (proj2 (getImages_results_follow_articles (E:=Sample.env 100)
                         [Sample.news1; Sample.news4])) Sample.news4).
  reflexivity.
Defined.

Lemma own_image_example :
  withImages (E:=Sample.env 100) [Sample.news1; Sample.news2]
  = [setImage Sample.news1 "http://example.com/img/a.png"; Sample.news2].
Proof.
  apply (every_article_gets_its_own_image (E:=Sample.env 100)
           [Sample.news1; Sample.news2]).
  apply (bool_decide_unpack _). reflexivity.
Defined.

Lemma update_merges_example :
  exists updated,
    updateStockDatum (E:=Sample.env 100) Sample.acme [Sample.news2] [Sample.news1]
    = (updated, [updated]) /\
    company updated = "Acme".
Proof.
  destruct (update_merges_whatever_the_prices (E:=Sample.env 100) Sample.acme
              [Sample.news2] [Sample.news1] ltac:(discriminate))
    as (updated & Hpair & _ & Hcompany & _).
  exists updated. split; [exact Hpair | exact Hcompany].
Defined.

Lemma stored_history_example :
  StronglySorted (atLeastAsRecent (E:=Sample.env 100))
    (default [] (history
       (insertNewArticles (E:=Sample.env 100) Sample.acme [Sample.news1]).1)).
Proof.
  apply (stored_history_most_recent_first (E:=Sample.env 100) Sample.acme
           [Sample.news1]).
  repeat constructor; eexists; reflexivity.
Defined.

Lemma distinct_urls_example :
  NoDup (historyUrls
           (updateStockDatum (E:=Sample.env 100) Sample.acme [Sample.news2]
              (filterNewArticles [Sample.news2] [Sample.news1; Sample.news2])).1).
Proof.
  apply (update_keeps_urls_distinct (E:=Sample.env 100) Sample.acme
           [Sample.news2] [Sample.news1; Sample.news2]);
    apply (bool_decide_unpack _); reflexivity.
Defined.

Lemma price_fetch_rejected_example :
  getLatestStockPrices (E:=Sample.env 100) Sample.acme = Rejected.
Proof.
  apply (proj1 (getLatestStockPrices_new_prices_win (E:=Sample.env 100)
                  Sample.acme)).
  intros t [= <-]. right. reflexivity.
Defined.

Lemma never_invents_example :
  (exists p, p ∈ Sample.threePairs /\ 12%Z = pair_price p) /\
  ("2018-01-26" = "2018-01-26" \/
   last Sample.threePairs = Some (mkPair "2018-01-26" 12%Z)).
Proof.
  apply (proj2 (getPairForDate_never_invents (E:=Sample.env 100)
                  "2018-01-26" Sample.threePairs) (mkPair "2018-01-26" 12%Z)).
  reflexivity.
Defined.

Lemma unparsed_date_example :
  getPairForDate (E:=Sample.env 100) "yesterday" Sample.threePairs = None.
Proof.
  apply (getPairForDate_unparsed_date_needs_exact_match (E:=Sample.env 100)
           "yesterday" Sample.threePairs);
    [reflexivity | repeat constructor; discriminate].
Defined.

Lemma neededDates_example :
  "2018-01-26" ∈ neededDates (E:=Sample.env 100) [Sample.news1; Sample.news2].
Proof.
  apply (proj2 (proj2 (neededDates_are_the_article_dates (E:=Sample.env 100)
                         [Sample.news1; Sample.news2]) "2018-01-26")).
  exists Sample.news1, "2018-01-26". split; [left | split; reflexivity].
Defined.

Lemma filterPriceHistory_example :
  is_Some (filterPriceHistory (E:=Sample.env 100) ["2018-01-26"]
             Sample.threePairs !! "2018-01-26").
Proof.
  apply (proj2 (filterPriceHistory_holds_the_lookups (E:=Sample.env 100)
                  ["2018-01-26"] Sample.threePairs)
           "2018-01-26" (mkPair "2018-01-26" 12%Z));
    [left | reflexivity].
Defined.

Lemma trimmed_prices_example :
  exists kept,
    price_history
      (updateStockDatum (E:=Sample.env 100) Sample.ibm [] [Sample.news1]).1
    = Some kept.
Proof.
  destruct (successful_update_trims_prices (E:=Sample.env 100) Sample.ibm
              (mkStock "IBM" (Some "IBM") (Some [])
                 (Some (<["2018-01-20" := 10%Z]> (<["2018-01-25" := 12%Z]>
                          (<["2018-01-30" := 15%Z]> ∅)) ∪ ∅)))
              [] [Sample.news1] ltac:(discriminate) eq_refl)
    as (kept & Hkept & _).
  exists kept. exact Hkept.
Defined.

Lemma stored_records_kept_example :
  exists s',
    (updateStocksData (E:=Sample.env 100)
       [Sample.acmeDatum; Sample.ibmDatum] [Sample.ibm; Sample.acme]).1 !! 1%nat
    = Some s' /\
    company s' = "Acme" /\ ticker s' = Some "ACME".
Proof.
  apply (proj1 (updateStocksData_keeps_stored_records (E:=Sample.env 100)
                  [Sample.acmeDatum; Sample.ibmDatum] [Sample.ibm; Sample.acme])
           1%nat Sample.acme).
  reflexivity.
Defined.

Lemma nothing_new_example :
  Sample.acme
  ∈ (updateStocksData (E:=Sample.env 100)
       [Sample2.quietDatum; Sample.ibmDatum] [Sample.ibm; Sample.acme]).1.
Proof.
  apply (proj2 (nothing_new_leaves_record_untouched (E:=Sample.env 100)
                  [Sample2.quietDatum; Sample.ibmDatum] [Sample.ibm; Sample.acme])
           Sample2.quietDatum);
    [apply (bool_decide_unpack _); reflexivity | left | reflexivity].
Defined.

Lemma unknown_company_example :
  (exists created,
     created ∈ (updateStocksData (E:=Sample.env 100)
                  [Sample2.appleDatum] [Sample.ibm]).1 /\
     company created = "Apple" /\
     ticker created = Some "AAPL") /\
  (exists created,
     created ∈ (updateStocksData (E:=Sample.env 100)
                  [Sample2.initechDatum] [Sample.ibm]).1 /\
     company created = "Initech" /\
     ticker created = Some "No Ticker Found").
Proof.
  split.
  - destruct (unknown_company_gets_a_record (E:=Sample.env 100)
                [Sample2.appleDatum] [Sample.ibm] Sample2.appleDatum)
      as (created & Hin & _ & Hcompany & _ & Hticker & _).
    + apply (bool_decide_unpack _). reflexivity.
    + left.
    + reflexivity.
    + discriminate.
    + exists created. split; [exact Hin|]. split; [exact Hcompany|].
      apply (Hticker [("IBM", "IBM")] "AAPL" []); [reflexivity|].
      apply (bool_decide_unpack _). reflexivity.
  - destruct (unknown_company_gets_a_record (E:=Sample.env 100)
                [Sample2.initechDatum] [Sample.ibm] Sample2.initechDatum)
      as (created & Hin & _ & Hcompany & _ & _ & Hticker).
    + apply (bool_decide_unpack _). reflexivity.
    + left.
    + reflexivity.
    + discriminate.
    + exists created. split; [exact Hin|]. split; [exact Hcompany|].
      apply Hticker. apply (bool_decide_unpack _). reflexivity.
Defined.

Lemma batch_writes_example :
  exists d,
    d ∈ [Sample.acmeDatum; Sample.ibmDatum] /\
    mkStock "Acme" (Some "ACME")
      (Some [setImage Sample.news1 "http://example.com/img/a.png"; Sample.news2])
      (price_history Sample.acme)
    = (updateFor (E:=Sample.env 100) [Sample.ibm; Sample.acme] d).1 /\
    newArticlesFor (E:=Sample.env 100) [Sample.ibm; Sample.acme] d <> [].
Proof.
  apply (proj2 (batch_result_is_stored_or_updated (E:=Sample.env 100)
                  [Sample.acmeDatum; Sample.ibmDatum] [Sample.ibm; Sample.acme]
                  ltac:(apply (bool_decide_unpack _); reflexivity))).
  apply list_elem_of_In. left. reflexivity.
Defined.

Lemma sample_answers_ordinary (companies : list string) :
  ordinaryAnswers (E:=Sample2.burst 100) companies.
Proof.
  intros c results _ Hq. change (Sample2.queries c = QueryOk results) in Hq.
  unfold Sample2.queries, Sample.queries in Hq.
  destruct (String.eqb c "Ghost"); [discriminate|].
  destruct (String.eqb c "IBM").
  - injection Hq as <-. repeat constructor; discriminate.
  - destruct (String.eqb c "Apple"); [|discriminate].
    injection Hq as <-. repeat constructor; discriminate.
Qed.

Lemma fan_out_example :
  getArticleDataForCompanies (E:=Sample2.burst 100) ["Acme"; "Apple"; "Initech"]
  = ([datumOf (E:=Sample2.burst 100) "Apple"],
     Some "Error: timeout,Error: timeout").
Proof.
  apply (proj1 (proj2 (proj2 (getArticleDataForCompanies_tick_by_tick
                  (E:=Sample2.burst 100) ["Acme"; "Apple"; "Initech"]
                  (sample_answers_ordinary _))))
           [] ["Acme"; "Apple"; "Initech"] []);
    [reflexivity | constructor | reflexivity].
Defined.

Lemma run_rejects_in_one_tick_example :
  (run (E:=Sample2.burst 100) (Some ["Ghost"; "Acme"])).1 = Rejected.
Proof.
  apply (proj2 (proj1 (run_rejects_exactly_when (E:=Sample2.burst 100)
                         (Some ["Ghost"; "Acme"])
                         (fun docs _ => sample_answers_ordinary _)))).
  right. right. exists [Sample.ibm]. split; [reflexivity|]. right.
  exists [], ["Ghost"; "Acme"], [], "Acme", (ReasonError "timeout").
  split; [reflexivity|]. split; [constructor|].
  split; [right; left|]. split; reflexivity.
Defined.

Lemma falsy_reason_example :
  run (E:=Sample2.burst 100) (Some ["IBM"; "Ghost"; "Apple"])
  = (Resolved (updateStocksData (E:=Sample2.burst 100)
                 [datumOf (E:=Sample2.burst 100) "IBM";
                  datumOf (E:=Sample2.burst 100) "Apple"] [Sample.ibm]).1,
     (updateStocksData (E:=Sample2.burst 100)
        [datumOf (E:=Sample2.burst 100) "IBM";
         datumOf (E:=Sample2.burst 100) "Apple"] [Sample.ibm]).2).
Proof.
  apply (run_resolves_partially_on_falsy_reasons (E:=Sample2.burst 100)
           ["IBM"; "Ghost"; "Apple"] [Sample.ibm]
           [] ["IBM"; "Ghost"; "Apple"] [] (sample_answers_ordinary _));
    [reflexivity | reflexivity | discriminate | reflexivity | constructor
    | reflexivity |].
  intros c reason Hc Hq. change (Sample2.queries c = QueryFailed reason) in Hq.
  apply list_elem_of_In in Hc. simpl in Hc.
  destruct Hc as [<-|[<-|[<-|[]]]]; vm_compute in Hq; try discriminate.
  now injection Hq as <-.
Defined.

Lemma run_default_example :
  run (E:=Sample.env 100) None = run (E:=Sample.env 100) (Some ["IBM"]).
Proof.
  apply (proj1 (run_defaults_to_stored_companies (E:=Sample.env 100)
                  [Sample.ibm] eq_refl)).
Defined.

(** ** Merging a batch twice, and the cap beside undated articles *)

Section MergeTwice.
Context `{E : Env}.

Lemma capArticles_evicted l :
  capArticles l ++ skipn MAX_ARTICLES_PER_COMPANY l = l.
Proof.
  unfold capArticles. destruct (Nat.ltb_spec MAX_ARTICLES_PER_COMPANY (length l)).
  - apply firstn_skipn.
  - rewrite skipn_all2 by lia. apply app_nil_r.
Qed.

(** C5, amended. For every existing history and incoming batch, an
    incoming article that a second merge of the same batch finds new has
    the URL of an article the cap evicted in the first merge. So the second
    merge yields no new article when none of the evicted articles carries
    the URL of an incoming one, and in particular when the existing and the
    new articles together do not exceed the configured maximum, in which
    case nothing is evicted. *)
Theorem second_merge_new_only_if_evicted
    (stockDatum : Stock Price) (incoming : list Article) :
  let existing := default [] (history stockDatum) in
  let newArticles := filterNewArticles existing incoming in
  let merged :=
    default [] (history (updateStockDatum stockDatum existing newArticles).1) in
  let evicted := evictedArticles stockDatum newArticles in
  merged ++ evicted ≡ₚ existing ++ withImages newArticles /\
  ((length existing + length newArticles <= MAX_ARTICLES_PER_COMPANY)%nat ->
   evicted = []) /\
  (forall a, a ∈ filterNewArticles merged incoming -> url a ∈ urls evicted) /\
  (Forall (fun a => url a ∉ urls evicted) incoming ->
   filterNewArticles merged incoming = []).
Proof.
  intros existing newArticles merged evicted.
  assert (Hperm : merged ++ evicted ≡ₚ existing ++ withImages newArticles).
  { subst merged evicted. unfold evictedArticles.
    destruct newArticles as [|a rest] eqn:Hnew.
    - simpl. fold existing. reflexivity.
    - rewrite <- Hnew.
      destruct (updateStockDatum_history stockDatum existing newArticles)
        as (_ & -> & _); [rewrite Hnew; discriminate|].
      replace (0 <? length newArticles)%nat with true
        by (rewrite Hnew; reflexivity).
      simpl. fold existing. rewrite capArticles_evicted. apply sortArticles_perm. }
  assert (Hnewer : forall a, a ∈ filterNewArticles merged incoming ->
                             url a ∈ urls evicted).
  { intros a Ha. rewrite filterNewArticles_filter in Ha.
    apply list_elem_of_filter in Ha as [Hfresh Ha].
    assert (Hall : url a ∈ urls (merged ++ evicted)).
    { unfold urls. rewrite Hperm, map_app.
      destruct (decide (url a ∈ urls existing)) as [Hold|Hnew].
      - apply elem_of_app. now left.
      - apply elem_of_app. right.
        pose proof (withoutImage_urls _ _
          (imageStep_withoutImage _ _ _
             (attachImages_step (resolvedImages newArticles) newArticles))) as Hurls.
        fold (withImages newArticles) in Hurls. unfold urls in Hurls. rewrite Hurls.
        apply list_elem_of_fmap. exists a. split; [reflexivity|].
        unfold newArticles. rewrite filterNewArticles_filter.
        apply list_elem_of_filter. auto. }
    unfold urls in Hall. rewrite map_app in Hall.
    apply elem_of_app in Hall as [Hin|Hin]; [contradiction | exact Hin]. }
  split; [exact Hperm|]. split; [|split; [exact Hnewer|]].
  - intros Hfit. subst evicted. unfold evictedArticles.
    destruct (0 <? length newArticles)%nat; [|reflexivity].
    apply skipn_all2. rewrite merged_length. fold existing. lia.
  - intros Hclear.
    destruct (filterNewArticles merged incoming) as [|a rest] eqn:Hagain;
      [reflexivity|]. exfalso.
    pose proof (Hnewer a ltac:(left)) as Hev.
    assert (Ha : a ∈ filterNewArticles merged incoming) by (rewrite Hagain; left).
    rewrite filterNewArticles_filter in Ha.
    apply list_elem_of_filter in Ha as [_ Ha].
    rewrite Forall_forall in Hclear. now apply (Hclear a Ha).
Qed.

End MergeTwice.

Lemma second_merge_under_cap_example :
  filterNewArticles
    (default [] (history
       (updateStockDatum (E:=Sample.env 2) Sample2.fullAcme
          [Sample.news2; Sample.news4]
          (filterNewArticles [Sample.news2; Sample.news4] [Sample.news1])).1))
    [Sample.news1] = [] /\
  evictedArticles (E:=Sample.env 2) Sample2.fullAcme [Sample.news1]
  = [Sample.news4].
Proof.
  split; [|reflexivity].
  apply (proj2 (proj2 (proj2 (second_merge_new_only_if_evicted (E:=Sample.env 2)
           Sample2.fullAcme [Sample.news1])))).
  repeat constructor. apply (bool_decide_unpack _). reflexivity.
Defined.

(** C6, on an input with an undated article. With a maximum of one article,
    a history holding an article of 1 January and a batch of an article
    without a date followed by an article of 3 January: both comparisons of
    the sort involve an invalid date, the merged list stays as it is, and
    the cap keeps the article of 1 January and evicts the more recent
    one. *)
Theorem cap_beside_undated_article_evicts_the_newest :
  history (insertNewArticles (E:=Sample.env 1) Sample2.oldStock
             [Sample2.undated; Sample2.newest]).1
  = Some [Sample2.oldest] /\
  evictedArticles (E:=Sample.env 1) Sample2.oldStock
    [Sample2.undated; Sample2.newest]
  = [Sample2.undated; Sample2.newest] /\
  articleTime (E:=Sample.env 1) Sample2.oldest = Some 20180101%Z /\
  articleTime (E:=Sample.env 1) Sample2.undated = None /\
  articleTime (E:=Sample.env 1) Sample2.newest = Some 20180103%Z /\
  ~ atLeastAsRecent (E:=Sample.env 1) Sample2.oldest Sample2.newest.
Proof.
  repeat split; try reflexivity. vm_compute. intros Hle. now apply Hle.
Qed.
